(** * The voice-call demo page (src/app/page.tsx), embedded and verified

    The page is a single React component, [Home].  Its handlers are embedded
    as functions on an explicit [World]: the component's state and refs, the
    two speech capabilities it drives, and the event loop holding the pending
    [setTimeout] / [setInterval] callbacks.

    Conventions of the embedding:
    - a JavaScript string is a [string]: a sequence of code units below 256
      (the recogniser is configured for en-US); texts with other code units
      are outside the embedding;
    - a JavaScript number holding an integer (the seconds counter) is a [Z];
      the source computes on IEEE doubles, which count the integers exactly
      up to [MAX_SAFE_INTEGER] = 2^53 - 1 in absolute value, and statements
      about numbers are made within that range, where the function on
      doubles ([formatDuration_double]) is proved to give the same text
      ([formatDuration_double_exact]); beyond it the two differ;
    - a [Date] is seen through the two renderings the page reads from it;
    - time is counted in milliseconds ([N]). *)

From Stdlib Require Import ZArith NArith Bool List String Ascii Lia.
From Stdlib Require Import DecimalString DecimalZ QArith_base SpecFloat.
Import ListNotations.

Close Scope Q_scope.
Local Open Scope string_scope.
Local Open Scope bool_scope.

(** ** String primitives *)

Module Js.

(** Code units that [toLowerCase] maps 32 places up: A-Z and the upper-case
    letters of the Latin-1 block (all of U+00C0..U+00DE but the sign U+00D7). *)
Definition isUpper (c : ascii) : bool :=
  let n := N_of_ascii c in
  ((65 <=? n)%N && (n <=? 90)%N)
  || ((192 <=? n)%N && (n <=? 222)%N && negb (n =? 215)%N).

Definition lowerUnit (c : ascii) : ascii :=
  if isUpper c then ascii_of_N (N_of_ascii c + 32) else c.

(** [String.prototype.toLowerCase], which works unit by unit on code units
    below 256. *)
Fixpoint toLowerCase (s : string) : string :=
  match s with
  | EmptyString => EmptyString
  | String c s' => String (lowerUnit c) (toLowerCase s')
  end.

(** [s.startsWith(k)]. *)
Fixpoint startsWith (s k : string) : bool :=
  match k, s with
  | EmptyString, _ => true
  | String _ _, EmptyString => false
  | String b k', String a s' => Ascii.eqb a b && startsWith s' k'
  end.

(** [s.includes(k)]: [k] occurs in [s] at some position. *)
Fixpoint includes (s k : string) : bool :=
  startsWith s k ||
  match s with
  | EmptyString => false
  | String _ s' => includes s' k
  end.

(** White space removed by [trim], among the code units below 256. *)
Definition isSpace (c : ascii) : bool :=
  let n := N_of_ascii c in
  ((9 <=? n)%N && (n <=? 13)%N) || (n =? 32)%N || (n =? 160)%N.

Fixpoint trimStart (s : string) : string :=
  match s with
  | EmptyString => EmptyString
  | String c s' => if isSpace c then trimStart s' else s
  end.

Fixpoint trimEnd (s : string) : string :=
  match s with
  | EmptyString => EmptyString
  | String c s' =>
      match trimEnd s' with
      | EmptyString => if isSpace c then EmptyString else String c EmptyString
      | r => String c r
      end
  end.

(** [String.prototype.trim]. *)
Definition trim (s : string) : string := trimEnd (trimStart s).

(** [Number.prototype.toString] on an integer: decimal digits, a leading
    minus sign for a negative number.  This is what the source prints for an
    integer up to 2^53 - 1 in absolute value; above, it prints the shortest
    digits that read back as the same double. *)
Definition toString (z : Z) : string := NilZero.string_of_int (Z.to_int z).

(** Reads a decimal numeral back (used to state what a field denotes). *)
Definition parseDecimal (s : string) : option Z :=
  option_map Z.of_int (NilZero.int_of_string s).

Fixpoint replicate (n : nat) (c : ascii) : string :=
  match n with
  | O => EmptyString
  | S n' => String c (replicate n' c)
  end.

(** [s.padStart(targetLength, fill)] for a one-character [fill]. *)
Definition padStart (s : string) (targetLength : nat) (fill : ascii) : string :=
  replicate (targetLength - String.length s) fill ++ s.

End Js.

(** ** Data model *)

(** A [Date] object, as far as the page observes one: [toLocaleTimeString()]
    and [toLocaleDateString('en-US', {weekday, year, month, day})]. *)
Record Date := mkDate {
  toLocaleTimeString : string;
  toLocaleDateString : string
}.

Inductive Role := user | assistant.

Record Message := mkMessage {
  role : Role;
  content : string;
  timestamp : Date
}.

Inductive CallStatus := idle | connecting | active | ended.

Definition CallStatus_eqb (a b : CallStatus) : bool :=
  match a, b with
  | idle, idle | connecting, connecting | active, active | ended, ended => true
  | _, _ => false
  end.

(** ** The reply rules: [generateResponse] *)

Definition reply_greeting : string :=
  "Hello! It's great to hear from you. What can I assist you with?".
Definition reply_wellbeing : string :=
  "I'm functioning perfectly, thank you for asking! How can I help you today?".
Definition reply_appointment : string :=
  "I can help you schedule an appointment. What date and time works best for you?".
Definition reply_weather : string :=
  "I can help with weather information. Which location are you interested in?".
Definition reply_help : string :=
  "I'm here to assist you with scheduling appointments, answering questions, or providing information. What do you need?".
Definition reply_thanks : string :=
  "You're very welcome! Is there anything else I can help you with?".
Definition reply_farewell : string :=
  "Goodbye! Have a wonderful day. Feel free to call again anytime!".
Definition reply_identity : string :=
  "I'm an AI calling agent designed to assist you with various tasks and inquiries.".
Definition reply_time (now : Date) : string :=
  "The current time is " ++ toLocaleTimeString now ++ ".".
Definition reply_date (now : Date) : string :=
  "Today is " ++ toLocaleDateString now ++ ".".
Definition reply_fallback : string :=
  "I understand. Could you tell me more about what you need assistance with?".

(** [generateResponse(userInput)].  The two [new Date()] of the source read
    the clock; [now] is that reading. *)
Definition generateResponse (now : Date) (userInput : string) : string :=
  let input := Js.toLowerCase userInput in
  if Js.includes input "hello" || Js.includes input "hi" then reply_greeting
  else if Js.includes input "how are you" then reply_wellbeing
  else if Js.includes input "appointment" || Js.includes input "schedule"
    then reply_appointment
  else if Js.includes input "weather" then reply_weather
  else if Js.includes input "help" then reply_help
  else if Js.includes input "thank" then reply_thanks
  else if Js.includes input "bye" || Js.includes input "goodbye"
    then reply_farewell
  else if Js.includes input "name" then reply_identity
  else if Js.includes input "time" then reply_time now
  else if Js.includes input "date" then reply_date now
  else reply_fallback.

(** ** [formatDuration] *)

(** [Math.floor(seconds / 60)] is [Z.div]; the remainder operator [%] takes
    the sign of the dividend, which is [Z.rem].  The division of the source
    is the division of doubles, which this follows for the integers up to
    2^53 - 1 in absolute value; [formatDuration_double] below follows the
    doubles, and is proved equal to this within that range. *)
Definition formatDuration (seconds : Z) : string :=
  let mins := (seconds / 60)%Z in
  let secs := Z.rem seconds 60 in
  Js.padStart (Js.toString mins) 2 "0" ++ ":" ++ Js.padStart (Js.toString secs) 2 "0".

(** ** The component's state, the capabilities and the event loop *)

(** A [SpeechSynthesisUtterance] with the settings [speak] gives it. *)
Record Utterance := mkUtterance {
  text : string;
  rate : Q;
  pitch : Q;
  volume : Q
}.

(** The callbacks the page hands to [setTimeout] and [setInterval], as data:
    the body of [startCall]'s timeout, of [endCall]'s timeout, of
    [handleUserSpeech]'s timeout (closing over the utterance), and of the
    one-second interval. *)
Inductive Callback :=
| CbConnect
| CbIdle
| CbReply (userText : string)
| CbTick.

Record Timer := mkTimer {
  tid : N;
  due : N;
  cb : Callback
}.

(** React state ([useState]) and refs ([useRef]) of [Home].
    - [recognitionRef]: [None] where the platform has no speech recognition,
      otherwise whether the recogniser is started;
    - [synthRef]: the speech-synthesis queue, its head being spoken;
    - [timerRef]: the id of the running interval. *)
Record Session := mkSession {
  callStatus : CallStatus;
  messages : list Message;
  isRecording : bool;
  transcript : string;
  callDuration : Z;
  recognitionRef : option bool;
  synthRef : option (list Utterance);
  timerRef : option N
}.

(** The session together with the browser's event loop: the time in
    milliseconds, the pending timers in the order they were armed, the next
    timer id, and the system clock that [new Date()] reads. *)
Record World := mkWorld {
  session : Session;
  now : N;
  timers : list Timer;
  nextId : N;
  clock : N -> Date
}.

(** Handlers are state transformers, composed left to right. *)
Definition Action := World -> World.

Definition seq (a b : Action) : Action := fun w => b (a w).
Notation "a ;; b" := (seq a b) (at level 61, left associativity).

Definition skip : Action := fun w => w.

Definition on_session (f : Session -> Session) : Action := fun w =>
  mkWorld (f (session w)) (now w) (timers w) (nextId w) (clock w).

Definition set_timers (q : list Timer) : Action := fun w =>
  mkWorld (session w) (now w) q (nextId w) (clock w).

Definition set_now (t : N) : Action := fun w =>
  mkWorld (session w) t (timers w) (nextId w) (clock w).

Definition setCallStatus (v : CallStatus) : Action :=
  on_session (fun s => mkSession v (messages s) (isRecording s) (transcript s)
    (callDuration s) (recognitionRef s) (synthRef s) (timerRef s)).

Definition setMessages (f : list Message -> list Message) : Action :=
  on_session (fun s => mkSession (callStatus s) (f (messages s)) (isRecording s)
    (transcript s) (callDuration s) (recognitionRef s) (synthRef s) (timerRef s)).

Definition setIsRecording (v : bool) : Action :=
  on_session (fun s => mkSession (callStatus s) (messages s) v (transcript s)
    (callDuration s) (recognitionRef s) (synthRef s) (timerRef s)).

Definition setTranscript (v : string) : Action :=
  on_session (fun s => mkSession (callStatus s) (messages s) (isRecording s) v
    (callDuration s) (recognitionRef s) (synthRef s) (timerRef s)).

Definition setCallDuration (f : Z -> Z) : Action :=
  on_session (fun s => mkSession (callStatus s) (messages s) (isRecording s)
    (transcript s) (f (callDuration s)) (recognitionRef s) (synthRef s) (timerRef s)).

Definition set_recognitionRef (v : option bool) : Action :=
  on_session (fun s => mkSession (callStatus s) (messages s) (isRecording s)
    (transcript s) (callDuration s) v (synthRef s) (timerRef s)).

Definition set_synthRef (v : option (list Utterance)) : Action :=
  on_session (fun s => mkSession (callStatus s) (messages s) (isRecording s)
    (transcript s) (callDuration s) (recognitionRef s) v (timerRef s)).

Definition set_timerRef (v : option N) : Action :=
  on_session (fun s => mkSession (callStatus s) (messages s) (isRecording s)
    (transcript s) (callDuration s) (recognitionRef s) (synthRef s) v).

(** [new Date()]. *)
Definition newDate (w : World) : Date := clock w (now w).

(** [setTimeout(cb, delay)] and [setInterval(cb, delay)] arm a timer at the
    end of the queue; the interval's id is returned. *)
Definition arm (c : Callback) (delay : N) : Action := fun w =>
  mkWorld (session w) (now w)
    (timers w ++ [mkTimer (nextId w) (now w + delay) c])%list
    (nextId w + 1) (clock w).

Definition setTimeout (c : Callback) (delay : N) : Action := arm c delay.

Definition setInterval (c : Callback) (delay : N) (w : World) : N * World :=
  (nextId w, arm c delay w).

(** [clearInterval(id)]. *)
Definition clearInterval (id : N) : Action := fun w =>
  set_timers (filter (fun t => negb (tid t =? id)%N) (timers w)) w.

(** The speech-synthesis queue: [cancel()] drops every utterance, [speak(u)]
    appends one. *)
Definition synth_cancel (q : list Utterance) : list Utterance := [].
Definition synth_speak (u : Utterance) (q : list Utterance) : list Utterance :=
  (q ++ [u])%list.

(** ** The handlers of [Home] *)

Definition greeting : string :=
  "Hello! I'm your AI calling agent. How can I help you today?".

Definition addMessage (r : Role) (c : string) : Action := fun w =>
  setMessages (fun prev => (prev ++ [mkMessage r c (newDate w)])%list) w.

Definition speak (t : string) : Action := fun w =>
  match synthRef (session w) with
  | Some q =>
      let utterance := mkUtterance t (9 # 10)%Q (1 # 1)%Q (1 # 1)%Q in
      set_synthRef (Some (synth_speak utterance (synth_cancel q))) w
  | None => w
  end.

Definition startCall : Action :=
  setCallStatus connecting ;;
  setTimeout CbConnect 1500.

(** The body of [startCall]'s timeout.  [recognition.start()] on a recogniser
    that is already started throws, which skips [setIsRecording(true)]. *)
Definition connected : Action :=
  setCallStatus active ;;
  setMessages (fun _ => []) ;;
  setCallDuration (fun _ => 0%Z) ;;
  (fun w => let (id, w') := setInterval CbTick 1000 w in set_timerRef (Some id) w') ;;
  addMessage assistant greeting ;;
  speak greeting ;;
  (fun w =>
     match recognitionRef (session w) with
     | Some false => (set_recognitionRef (Some true) ;; setIsRecording true) w
     | Some true => w
     | None => w
     end).

Definition endCall : Action :=
  (fun w =>
     match recognitionRef (session w) with
     | Some _ => (set_recognitionRef (Some false) ;; setIsRecording false) w
     | None => w
     end) ;;
  (fun w =>
     match synthRef (session w) with
     | Some q => set_synthRef (Some (synth_cancel q)) w
     | None => w
     end) ;;
  (fun w =>
     match timerRef (session w) with
     | Some id => (clearInterval id ;; set_timerRef None) w
     | None => w
     end) ;;
  setCallStatus ended ;;
  setTimeout CbIdle 2000.

(** The body of [endCall]'s timeout. *)
Definition backToIdle : Action :=
  setCallStatus idle ;;
  setTranscript "".

Definition handleUserSpeech (t : string) : Action :=
  setTranscript "" ;;
  addMessage user t ;;
  setTimeout (CbReply t) 500.

(** The body of [handleUserSpeech]'s timeout. *)
Definition reply (t : string) : Action := fun w =>
  let response := generateResponse (newDate w) t in
  (addMessage assistant response ;; speak response) w.

(** The loop of [recognition.onresult] over the entries of [event.results]
    from [event.resultIndex] on, each with its transcript and [isFinal]. *)
Fixpoint collect (results : list (string * bool))
    (interimTranscript finalTranscript : string) : string * string :=
  match results with
  | [] => (interimTranscript, finalTranscript)
  | (t, isFinal) :: rest =>
      if isFinal then collect rest interimTranscript (finalTranscript ++ t ++ " ")
      else collect rest (interimTranscript ++ t) finalTranscript
  end.

(** [recognition.onresult]; a string is truthy when it is not empty. *)
Definition onresult (results : list (string * bool)) : Action :=
  let (interimTranscript, finalTranscript) := collect results "" "" in
  match finalTranscript with
  | EmptyString => setTranscript interimTranscript
  | _ => handleUserSpeech (Js.trim finalTranscript)
  end.

(** [recognition.onerror] only logs. *)
Definition onerror : Action := skip.

(** ** The event loop *)

(** Runs the callback of a timer that has just been taken off the queue; an
    interval is armed again first. *)
Definition fire (t : Timer) : Action :=
  match cb t with
  | CbConnect => connected
  | CbIdle => backToIdle
  | CbReply u => reply u
  | CbTick =>
      (fun w => set_timers (timers w ++ [mkTimer (tid t) (now w + 1000) CbTick])%list w) ;;
      setCallDuration (fun prev => (prev + 1)%Z)
  end.

(** The first timer of the queue that is due, and the queue without it. *)
Fixpoint pop_due (t_now : N) (q : list Timer) : option (Timer * list Timer) :=
  match q with
  | [] => None
  | t :: q' =>
      if (due t <=? t_now)%N then Some (t, q')
      else match pop_due t_now q' with
           | Some (t', r) => Some (t', t :: r)
           | None => None
           end
  end.

(** Fires the due timers one after the other.  Every firing takes one due
    timer off the queue and arms none that is due, so the length of the queue
    is fuel enough (see [run_due_quiet]). *)
Fixpoint run_due (fuel : nat) (w : World) : World :=
  match fuel with
  | O => w
  | S fuel' =>
      match pop_due (now w) (timers w) with
      | None => w
      | Some (t, rest) => run_due fuel' (fire t (set_timers rest w))
      end
  end.

(** One millisecond passes. *)
Definition tick_ms (w : World) : World :=
  let w' := set_now (now w + 1) w in
  run_due (List.length (timers w')) w'.

(** [ms] milliseconds pass without any input. *)
Definition advance (ms : N) : Action := N.iter ms tick_ms.

(** ** Events *)

Inductive Event :=
| ClickStart
| ClickEnd
| SpeechResult (results : list (string * bool))
| SpeechError
| SpeechEnd
| Wait (ms : N).

(** What the page and the platform allow: the Start button is rendered when
    idle, the End button when connecting or active; the recogniser delivers
    events while started; an utterance ends when one is being spoken.  In
    these events the recogniser runs from [start()] to [stop()]; that it may
    also end by itself is [recogniser_ends] below. *)
Definition enabled (w : World) (e : Event) : bool :=
  match e with
  | ClickStart => CallStatus_eqb (callStatus (session w)) idle
  | ClickEnd =>
      CallStatus_eqb (callStatus (session w)) connecting
      || CallStatus_eqb (callStatus (session w)) active
  | SpeechResult _ | SpeechError =>
      match recognitionRef (session w) with Some true => true | _ => false end
  | SpeechEnd =>
      match synthRef (session w) with Some (_ :: _) => true | _ => false end
  | Wait _ => true
  end.

Definition handle (e : Event) : Action :=
  match e with
  | ClickStart => startCall
  | ClickEnd => endCall
  | SpeechResult results => onresult results
  | SpeechError => onerror
  | SpeechEnd => fun w => set_synthRef (option_map (@tl Utterance) (synthRef (session w))) w
  | Wait ms => advance ms
  end.

Definition step (w : World) (e : Event) : option World :=
  if enabled w e then Some (handle e w) else None.

Fixpoint exec (w : World) (es : list Event) : option World :=
  match es with
  | [] => Some w
  | e :: es' =>
      match step w e with
      | Some w' => exec w' es'
      | None => None
      end
  end.

(** The successive call statuses along a run, the starting one first. *)
Fixpoint status_trace (w : World) (es : list Event) : list CallStatus :=
  callStatus (session w) ::
  match es with
  | [] => []
  | e :: es' => status_trace (handle e w) es'
  end.

(** The component as mounted: the initial [useState] values, and what the
    mount effect finds on the platform. *)
Definition mount (hasRecognition hasSynth : bool) (clk : N -> Date) : World :=
  mkWorld
    (mkSession idle [] false "" 0%Z
       (if hasRecognition then Some false else None)
       (if hasSynth then Some [] else None)
       None)
    0 [] 0 clk.

Definition reachable (w : World) : Prop :=
  exists hasRecognition hasSynth clk es,
    exec (mount hasRecognition hasSynth clk) es = Some w.

(** ** The rule table as the specification words it

    An ordered list of rules, each a set of keywords and a canned reply; the
    reply is that of the first rule one of whose keywords occurs in the
    lower-cased input, and the fallback when there is none. *)

Inductive Rule :=
| r_greeting | r_wellbeing | r_appointment | r_weather | r_help
| r_thanks | r_farewell | r_identity | r_time | r_date.

Definition priority : list Rule :=
  [r_greeting; r_wellbeing; r_appointment; r_weather; r_help;
   r_thanks; r_farewell; r_identity; r_time; r_date].

Definition keywords (r : Rule) : list string :=
  match r with
  | r_greeting => ["hello"; "hi"]
  | r_wellbeing => ["how are you"]
  | r_appointment => ["appointment"; "schedule"]
  | r_weather => ["weather"]
  | r_help => ["help"]
  | r_thanks => ["thank"]
  | r_farewell => ["bye"; "goodbye"]
  | r_identity => ["name"]
  | r_time => ["time"]
  | r_date => ["date"]
  end.

Definition canned (r : Rule) (now : Date) : string :=
  match r with
  | r_greeting => reply_greeting
  | r_wellbeing => reply_wellbeing
  | r_appointment => reply_appointment
  | r_weather => reply_weather
  | r_help => reply_help
  | r_thanks => reply_thanks
  | r_farewell => reply_farewell
  | r_identity => reply_identity
  | r_time => reply_time now
  | r_date => reply_date now
  end.

Definition matches (input : string) (r : Rule) : bool :=
  existsb (Js.includes input) (keywords r).

Definition first_rule (userInput : string) : option Rule :=
  find (matches (Js.toLowerCase userInput)) priority.

Definition matchReply (now : Date) (userInput : string) : string :=
  match first_rule userInput with
  | Some r => canned r now
  | None => reply_fallback
  end.

(** Whether the first matching rule is one that reads the clock. *)
Definition reads_clock (userInput : string) : bool :=
  match first_rule userInput with
  | Some r_time | Some r_date => true
  | _ => false
  end.

(** Two texts that differ at most in the case of their letters. *)
Definition unit_variant (a b : ascii) : Prop :=
  a = b
  \/ (Js.isUpper a = true /\ b = ascii_of_N (N_of_ascii a + 32))
  \/ (Js.isUpper b = true /\ a = ascii_of_N (N_of_ascii b + 32)).

Inductive case_variant : string -> string -> Prop :=
| cv_nil : case_variant EmptyString EmptyString
| cv_cons a b s t :
    unit_variant a b -> case_variant s t ->
    case_variant (String a s) (String b t).

(** A field made of decimal digits only. *)
Definition isDigit (c : ascii) : bool :=
  let n := N_of_ascii c in (48 <=? n)%N && (n <=? 57)%N.

Fixpoint all_digits (s : string) : bool :=
  match s with
  | EmptyString => true
  | String c s' => isDigit c && all_digits s'
  end.

(** Two readings of the clock, one second apart. *)
Definition ten_o_clock : Date := mkDate "10:00:00 AM" "Sunday, November 1, 2026".
Definition a_second_later : Date := mkDate "10:00:01 AM" "Sunday, November 1, 2026".

(** ** Predicates on the event loop *)

Definition is_tick (t : Timer) : bool :=
  match cb t with CbTick => true | _ => false end.

Definition is_due (n : N) (t : Timer) : bool := (due t <=? n)%N.

Definition due_count (n : N) (q : list Timer) : nat :=
  List.length (filter (is_due n) q).

(** No pending timer is due. *)
Definition quiet (w : World) : Prop :=
  Forall (fun t => (now w < due t)%N) (timers w).

(** The timer [ours] is pending and every timer armed after it is a tick of
    the one-second interval. *)
Definition waiting (ours : Timer) (w : World) : Prop :=
  exists l1 l2,
    timers w = (l1 ++ ours :: l2)%list /\ Forall (fun t => is_tick t = true) l2.

(** [Q] holds of the session and only ticks are left to fire now. *)
Definition settled (Q : Session -> Prop) (w : World) : Prop :=
  Q (session w)
  /\ Forall (fun t => (due t <= now w)%N -> is_tick t = true) (timers w).

(** At most one utterance is pending in the speech-synthesis queue. *)
Definition at_most_one_pending (s : Session) : Prop :=
  match synthRef s with
  | Some q => List.length q <= 1
  | None => True
  end.

Definition greeting_message (d : Date) : Message :=
  mkMessage assistant greeting d.

(** The user speaks, hangs up at once, and half a second passes. *)
Definition hangup_before_reply : list Event :=
  [ClickStart; Wait 1500; SpeechResult [("hello", true)]; ClickEnd; Wait 500].

(** The user hangs up while the call is still connecting. *)
Definition hangup_while_connecting : list Event :=
  [ClickStart; Wait 100; ClickEnd; Wait 1400; Wait 600].

(** Listening is stopped, nothing is being spoken and no interval runs. *)
Definition resources_stopped (s : Session) : Prop :=
  recognitionRef s <> Some true
  /\ (synthRef s = None \/ synthRef s = Some [])
  /\ timerRef s = None.

(** A system clock for the examples: it renders the milliseconds elapsed. *)
Definition stopwatch (ms : N) : Date :=
  mkDate (Js.toString (Z.of_N ms)) "Sunday, November 1, 2026".


(** ** Further code of the page: the unmount cleanup and the view *)

(** The cleanup of the mount effect: the recogniser is stopped and the
    interval of [timerRef] is cleared; [timerRef] itself is left as it is. *)
Definition unmount : Action :=
  (fun w =>
     match recognitionRef (session w) with
     | Some _ => set_recognitionRef (Some false) w
     | None => w
     end) ;;
  (fun w =>
     match timerRef (session w) with
     | Some id => clearInterval id w
     | None => w
     end).

(** What [Home] renders, as far as it depends on the state: the status text,
    which of the two buttons is there, the recording indicator, and the
    conversation (the placeholder, or a row per message with its role, the
    time of its timestamp and its content). *)
Record View := mkView {
  statusText : string;
  startButton : bool;
  endButton : bool;
  recordingIndicator : option string;
  emptyState : bool;
  rows : list (Role * string * string)
}.

Definition render (s : Session) : View :=
  mkView
    (match callStatus s with
     | idle => "Ready to call"
     | connecting => "Connecting..."
     | active => "Active - " ++ formatDuration (callDuration s)
     | ended => "Call ended"
     end)
    (CallStatus_eqb (callStatus s) idle)
    (CallStatus_eqb (callStatus s) connecting
     || CallStatus_eqb (callStatus s) active)
    (if CallStatus_eqb (callStatus s) active
     then Some (match transcript s with
                | EmptyString => "Listening..."
                | t => t
                end)
     else None)
    (Nat.eqb (List.length (messages s)) 0)
    (map (fun msg => (role msg, toLocaleTimeString (timestamp msg), content msg))
         (messages s)).

(** ** Notions used to state further properties *)

Definition first_unit (s : string) : option ascii :=
  match s with
  | EmptyString => None
  | String c _ => Some c
  end.

Fixpoint last_unit (s : string) : option ascii :=
  match s with
  | EmptyString => None
  | String c EmptyString => Some c
  | String _ s' => last_unit s'
  end.

(** A text that neither starts nor ends with white space. *)
Definition trimmed (s : string) : Prop :=
  (forall c, first_unit s = Some c -> Js.isSpace c = false)
  /\ (forall c, last_unit s = Some c -> Js.isSpace c = false).

Fixpoint all_space (s : string) : bool :=
  match s with
  | EmptyString => true
  | String c s' => Js.isSpace c && all_space s'
  end.

(** The transcripts of the final results of a recognition event, each
    followed by a space, and the transcripts of its interim results. *)
Fixpoint spaced_finals (results : list (string * bool)) : string :=
  match results with
  | [] => EmptyString
  | (t, true) :: rest => t ++ " " ++ spaced_finals rest
  | (_, false) :: rest => spaced_finals rest
  end.

Fixpoint joined_interims (results : list (string * bool)) : string :=
  match results with
  | [] => EmptyString
  | (_, true) :: rest => joined_interims rest
  | (t, false) :: rest => t ++ joined_interims rest
  end.

Definition is_reply (t : Timer) : bool :=
  match cb t with CbReply _ => true | _ => false end.

(** The message a reply to [t] fired at time [at_ms] appends, and the
    utterance it speaks. *)
Definition reply_message (clk : N -> Date) (at_ms : N) (t : string) : Message :=
  mkMessage assistant (generateResponse (clk at_ms) t) (clk at_ms).

Definition reply_utterance (clk : N -> Date) (at_ms : N) (t : string) : Utterance :=
  mkUtterance (generateResponse (clk at_ms) t) (9 # 10)%Q (1 # 1)%Q (1 # 1)%Q.

(** The reply to [t] is the last message and, where there is speech
    synthesis, the only utterance in its queue. *)
Definition answered (clk : N -> Date) (at_ms : N) (t : string) (s : Session) : Prop :=
  (exists before, messages s = (before ++ [reply_message clk at_ms t])%list)
  /\ match synthRef s with
     | Some q => q = [reply_utterance clk at_ms t]
     | None => True
     end.

(** The conversation is empty or opens with the agent's greeting. *)
Definition opens_with_greeting (s : Session) : Prop :=
  messages s = []
  \/ exists d rest, messages s = greeting_message d :: rest.

(** Nothing has been said yet: no message, the recogniser not started, no
    reply pending. *)
Definition silent (w : World) : Prop :=
  messages (session w) = []
  /\ recognitionRef (session w) <> Some true
  /\ Forall (fun t => is_reply t = false) (timers w).

(** No timer is pending. *)
Definition fresh (w : World) : Prop := timers w = [].

(** Every pending timeout is due within [bound]. *)
Definition timeouts_within (bound : N) (q : list Timer) : Prop :=
  Forall (fun t => is_tick t = true \/ (due t <= bound)%N) q.


(** The timer [ours] is pending among ticks of the interval only. *)
Definition among_ticks (ours : Timer) (q : list Timer) : Prop :=
  exists l1 l2,
    q = (l1 ++ ours :: l2)%list
    /\ Forall (fun t => is_tick t = true) l1
    /\ Forall (fun t => is_tick t = true) l2.

(** ** Numbers as the source has them: IEEE doubles *)

(** [Number.MAX_SAFE_INTEGER], 2^53 - 1. *)
Definition MAX_SAFE_INTEGER : Z := 9007199254740991.

Module Number.

(** The double nearest to an integer. *)
Definition of_Z (z : Z) : spec_float := binary_normalize 53 1024 z 0 false.

(** Whether the integer is a double, that is, [of_Z] does not round. *)
Definition holds (z : Z) : bool :=
  match of_Z z with
  | S754_zero _ => (z =? 0)%Z
  | S754_finite s m e =>
      let v := if s then Z.neg m else Z.pos m in
      if (0 <=? e)%Z then (v * 2 ^ e =? z)%Z else (v =? z * 2 ^ (- e))%Z
  | _ => false
  end.

(** The operator [/]. *)
Definition div (x y : spec_float) : spec_float := SFdiv 53 1024 x y.

(** [Math.floor], for a finite number. *)
Definition floor (x : spec_float) : option Z :=
  match x with
  | S754_zero _ => Some 0%Z
  | S754_finite s m e =>
      let v := if s then Z.neg m else Z.pos m in
      Some (if (0 <=? e)%Z then v * 2 ^ e else v / 2 ^ (- e))%Z
  | _ => None
  end.

(** [Number.prototype.toString] on an integer, in the range where it prints
    every digit. *)
Definition toString (z : Z) : option string :=
  if (Z.abs z <=? MAX_SAFE_INTEGER)%Z then Some (Js.toString z) else None.

End Number.

(** [formatDuration] on doubles, for a number of seconds that is an integer:
    the division rounds to the nearest double, the remainder of two integers
    is exact.  [None] where the integer is not a double or a field has more
    digits than [Number.toString] covers. *)
Definition formatDuration_double (seconds : Z) : option string :=
  if Number.holds seconds then
    match Number.floor (Number.div (Number.of_Z seconds) (Number.of_Z 60)) with
    | Some mins =>
        let secs := Z.rem seconds 60 in
        match Number.toString mins, Number.toString secs with
        | Some m, Some s => Some (Js.padStart m 2 "0" ++ ":" ++ Js.padStart s 2 "0")
        | _, _ => None
        end
    | None => None
    end
  else None.

(** Numbers of seconds on which the two are compared: small ones, the
    boundaries of a minute and the largest safe integers. *)
Definition duration_samples : list Z :=
  [0; 1; 59; 60; 61; 65; 3599; 3600; 3661; 86399; 4294967295;
   9007199254740939; 9007199254740940; 9007199254740990; 9007199254740991;
   -1; -59; -60; -61; -3661; -9007199254740991]%Z.

(** The number of bits of a mantissa, the mantissa of the double 60 (which is
    60 * 2^47 with the exponent -47) and the integer of a sign and a
    magnitude: the terms in which the division by 60 is followed. *)
Definition bits (p : positive) : Z := Zpos (digits2_pos p).

Definition sixty : positive := 8444249301319680.

Definition signed (sx : bool) (p : positive) : Z :=
  if sx then Zneg p else Zpos p.

(** ** Upper case *)

(** [String.prototype.toUpperCase] on code units below 256: the sharp s
    becomes two units; [None] where the upper-case form leaves the range (the
    micro sign and the y with diaeresis). *)
Definition upperUnit (c : ascii) : option string :=
  let n := N_of_ascii c in
  if ((97 <=? n)%N && (n <=? 122)%N)
     || ((224 <=? n)%N && (n <=? 254)%N && negb (n =? 247)%N)
  then Some (String (ascii_of_N (n - 32)) EmptyString)
  else if (n =? 223)%N then Some "SS"
  else if (n =? 181)%N || (n =? 255)%N then None
  else Some (String c EmptyString).

Fixpoint toUpperCase (s : string) : option string :=
  match s with
  | EmptyString => Some EmptyString
  | String c s' =>
      match upperUnit c, toUpperCase s' with
      | Some u, Some r => Some (u ++ r)
      | _, _ => None
      end
  end.

(** The text "schedule" with a sharp s (code unit 223) for its first letter. *)
Definition sharp_schedule : string := String (ascii_of_N 223) "chedule".

(** ** A recogniser that ends by itself *)

(** On the platform recognition also ends by itself, for instance after an
    error; the page registers no [onend] handler and does not notice. *)
Definition recogniser_ends : Action := set_recognitionRef (Some false).

(** The worlds the page reaches when that can happen at any time. *)
Inductive platform_reachable : World -> Prop :=
| pr_mount (hasRecognition hasSynth : bool) (clk : N -> Date) :
    platform_reachable (mount hasRecognition hasSynth clk)
| pr_step (w : World) (e : Event) (w' : World) :
    platform_reachable w -> step w e = Some w' -> platform_reachable w'
| pr_ends (w : World) :
    platform_reachable w -> recognitionRef (session w) = Some true ->
    platform_reachable (recogniser_ends w).

(** While the recogniser is started, [isRecording] is true. *)
Definition recorded_while_listening (s : Session) : Prop :=
  recognitionRef s = Some true -> isRecording s = true.


(** ** Strings: lemmas *)

Lemma startsWith_app (b c : string) : Js.startsWith (b ++ c) b = true.
Proof.
  induction b as [|x b IH]; simpl.
  - destruct c; reflexivity.
  - rewrite Ascii.eqb_refl. exact IH.
Qed.

Lemma includes_here (s k : string) :
  Js.startsWith s k = true -> Js.includes s k = true.
Proof. intros H. destruct s; simpl in *; rewrite H; reflexivity. Qed.

Lemma includes_later (a : ascii) (s k : string) :
  Js.includes s k = true -> Js.includes (String a s) k = true.
Proof. intros H. simpl. rewrite H. apply orb_true_r. Qed.

Lemma includes_app_l (a b k : string) :
  Js.includes b k = true -> Js.includes (a ++ b) k = true.
Proof.
  intros H. induction a as [|x a IH]; simpl append.
  - exact H.
  - apply includes_later, IH.
Qed.

Lemma includes_middle (a b c : string) : Js.includes (a ++ b ++ c) b = true.
Proof. apply includes_app_l, includes_here, startsWith_app. Qed.

Lemma lowerUnit_variant (a b : ascii) :
  unit_variant a b -> Js.lowerUnit a = Js.lowerUnit b.
Proof.
  intros [H | [[U H] | [U H]]]; subst; try reflexivity.
  - destruct a as [[] [] [] [] [] [] [] []];
      try discriminate U; reflexivity.
  - destruct b as [[] [] [] [] [] [] [] []];
      try discriminate U; reflexivity.
Qed.

Lemma toLowerCase_variant (s t : string) :
  case_variant s t -> Js.toLowerCase s = Js.toLowerCase t.
Proof.
  induction 1 as [|a b s t Hab _ IH]; simpl.
  - reflexivity.
  - rewrite (lowerUnit_variant a b Hab), IH. reflexivity.
Qed.

(** ** [generateResponse] against the rule table *)

Lemma find_first {A} (p : A -> bool) (before : list A) (x : A) (after : list A) :
  (forall y, In y before -> p y = false) -> p x = true ->
  find p (before ++ x :: after) = Some x.
Proof.
  intros Hb Hx. induction before as [|y before IH]; simpl.
  - rewrite Hx. reflexivity.
  - rewrite (Hb y (or_introl eq_refl)). apply IH.
    intros z Hz. apply Hb. right. exact Hz.
Qed.

Lemma find_none_all {A} (p : A -> bool) (l : list A) :
  (forall y, In y l -> p y = false) -> find p l = None.
Proof.
  intros H. induction l as [|y l IH]; simpl.
  - reflexivity.
  - rewrite (H y (or_introl eq_refl)). apply IH.
    intros z Hz. apply H. right. exact Hz.
Qed.

Ltac split_ifs :=
  repeat match goal with
         | |- context [if ?b then _ else _] => destruct b; simpl; try reflexivity
         end.

Lemma generateResponse_matchReply (now : Date) (userInput : string) :
  generateResponse now userInput = matchReply now userInput.
Proof.
  unfold generateResponse, matchReply, first_rule, priority, matches.
  cbn [find existsb keywords canned].
  rewrite !orb_false_r.
  generalize (Js.toLowerCase userInput); intros input.
  split_ifs.
Qed.

Lemma canned_clock_free (r : Rule) (d1 d2 : Date) :
  r <> r_time -> r <> r_date -> canned r d1 = canned r d2.
Proof. destruct r; intros H1 H2; try reflexivity; congruence. Qed.

(** ** Decimal fields *)

Lemma toString_parse (k : Z) : Js.parseDecimal (Js.toString k) = Some k.
Proof.
  unfold Js.parseDecimal, Js.toString.
  rewrite NilZero.isi.
  - simpl. rewrite DecimalZ.of_to. reflexivity.
  - destruct k; simpl; try discriminate.
    intros E. injection E as E. exact (DecimalPos.Unsigned.to_uint_nonnil _ E).
  - destruct k; simpl; try discriminate.
    intros E. injection E as E. exact (DecimalPos.Unsigned.to_uint_nonnil _ E).
Qed.

Lemma string_of_uint_digits (d : Decimal.uint) :
  all_digits (NilEmpty.string_of_uint d) = true.
Proof. induction d; simpl; auto. Qed.

Lemma toString_digits (k : Z) : (0 <= k)%Z -> all_digits (Js.toString k) = true.
Proof.
  intros Hk. unfold Js.toString, NilZero.string_of_int.
  destruct k as [|p|p]; simpl; try reflexivity; try lia.
  unfold NilZero.string_of_uint.
  destruct (Pos.to_uint p); try reflexivity; apply string_of_uint_digits.
Qed.

Lemma one_unit_below_ten (c : ascii) (k : Z) :
  Js.parseDecimal (String c EmptyString) = Some k -> (k < 10)%Z.
Proof.
  destruct c as [[] [] [] [] [] [] [] []]; vm_compute;
    intros E; try discriminate E; injection E as E; subst k; reflexivity.
Qed.

Lemma toString_long (k : Z) :
  (10 <= k)%Z -> 2 <= String.length (Js.toString k).
Proof.
  intros Hk. pose proof (toString_parse k) as P.
  destruct (Js.toString k) as [|c [|c' s]]; simpl.
  - discriminate P.
  - apply one_unit_below_ten in P. lia.
  - lia.
Qed.

Lemma toString_short (k : Z) :
  (0 <= k < 10)%Z ->
  exists c, Js.toString k = String c EmptyString.
Proof.
  intros Hk.
  assert (k = 0 \/ k = 1 \/ k = 2 \/ k = 3 \/ k = 4 \/ k = 5 \/ k = 6
          \/ k = 7 \/ k = 8 \/ k = 9)%Z as H by lia.
  repeat destruct H as [H | H]; subst k; eexists; reflexivity.
Qed.

Lemma toString_below_hundred (k : Z) :
  (10 <= k < 100)%Z -> String.length (Js.toString k) = 2.
Proof.
  intros Hk.
  replace k with (Z.of_nat (Z.to_nat k)) by lia.
  assert (10 <= Z.to_nat k < 100) as Hn by lia.
  generalize dependent (Z.to_nat k). clear. intros n Hn.
  do 10 (destruct n as [|n]; [lia|]).
  do 90 (destruct n as [|n]; [reflexivity|]). lia.
Qed.

Lemma padStart_short (k : Z) :
  (0 <= k < 10)%Z -> Js.padStart (Js.toString k) 2 "0" = "0" ++ Js.toString k.
Proof.
  intros Hk. destruct (toString_short k Hk) as [c E].
  unfold Js.padStart. rewrite E. reflexivity.
Qed.

Lemma padStart_long (k : Z) :
  (10 <= k)%Z -> Js.padStart (Js.toString k) 2 "0" = Js.toString k.
Proof.
  intros Hk. pose proof (toString_long k Hk) as L.
  unfold Js.padStart.
  replace (2 - String.length (Js.toString k)) with 0 by lia. reflexivity.
Qed.

Lemma padStart_parse (k : Z) :
  (0 <= k)%Z -> Js.parseDecimal (Js.padStart (Js.toString k) 2 "0") = Some k.
Proof.
  intros Hk. destruct (Z_lt_le_dec k 10) as [Hs | Hl].
  - assert (k = 0 \/ k = 1 \/ k = 2 \/ k = 3 \/ k = 4 \/ k = 5 \/ k = 6
            \/ k = 7 \/ k = 8 \/ k = 9)%Z as H by lia.
    repeat destruct H as [H | H]; subst k; reflexivity.
  - rewrite (padStart_long k Hl). apply toString_parse.
Qed.

Lemma padStart_digits (k : Z) :
  (0 <= k)%Z -> all_digits (Js.padStart (Js.toString k) 2 "0") = true.
Proof.
  intros Hk. destruct (Z_lt_le_dec k 10) as [Hs | Hl].
  - rewrite (padStart_short k (conj Hk Hs)). simpl. apply toString_digits, Hk.
  - rewrite (padStart_long k Hl). apply toString_digits, Hk.
Qed.

Lemma padStart_width (k : Z) :
  (0 <= k)%Z -> 2 <= String.length (Js.padStart (Js.toString k) 2 "0").
Proof.
  intros Hk. destruct (Z_lt_le_dec k 10) as [Hs | Hl].
  - rewrite (padStart_short k (conj Hk Hs)).
    destruct (toString_short k (conj Hk Hs)) as [c E]. rewrite E. simpl. lia.
  - rewrite (padStart_long k Hl). apply toString_long, Hl.
Qed.

Lemma padStart_width_two (k : Z) :
  (0 <= k < 100)%Z -> String.length (Js.padStart (Js.toString k) 2 "0") = 2.
Proof.
  intros Hk. destruct (Z_lt_le_dec k 10) as [Hs | Hl].
  - rewrite (padStart_short k ltac:(lia)).
    destruct (toString_short k ltac:(lia)) as [c E]. rewrite E. reflexivity.
  - rewrite (padStart_long k Hl). apply toString_below_hundred. lia.
Qed.

(** ** The reply rules: theorems *)

(** C3, as the code falsifies it: the reply to one and the same text is not
    the same at two evaluations, for the time rule renders the clock it reads
    when it is evaluated; and a text and its upper-case form need not get the
    same reply: "schedule" written with a sharp s gets the fallback, its
    upper-case form SSCHEDULE the appointment reply. *)
Lemma generateResponse_reads_the_clock :
  generateResponse ten_o_clock "what time is it"
  <> generateResponse a_second_later "what time is it"
  /\ toUpperCase sharp_schedule = Some "SSCHEDULE"
  /\ generateResponse ten_o_clock sharp_schedule = reply_fallback
  /\ generateResponse ten_o_clock "SSCHEDULE" = reply_appointment
  /\ generateResponse ten_o_clock sharp_schedule
     <> generateResponse ten_o_clock "SSCHEDULE".
Proof. vm_compute. repeat split; discriminate. Qed.

(** C3, amended: the reply is a function of the text and of the clock reading.
    For texts of code units below 256, two texts that differ only in the case
    of letters with a one-to-one lower-case form there (A to Z and the
    upper-case letters of Latin-1, each against the unit 32 above it) get the
    same reply at the same reading; a text whose first matching rule is
    neither the time nor the date rule gets the same reply at every reading;
    the two remaining rules render the reading. *)
Theorem generateResponse_case_insensitive :
  (forall (now : Date) (t t' : string),
      case_variant t t' -> generateResponse now t = generateResponse now t')
  /\ (forall (d1 d2 : Date) (t : string),
         reads_clock t = false -> generateResponse d1 t = generateResponse d2 t)
  /\ (forall (now : Date) (t : string),
         reads_clock t = true ->
         generateResponse now t = reply_time now
         \/ generateResponse now t = reply_date now).
Proof.
  split; [|split].
  - intros now t t' V. unfold generateResponse.
    rewrite (toLowerCase_variant t t' V). reflexivity.
  - intros d1 d2 t H. rewrite !generateResponse_matchReply.
    unfold matchReply. unfold reads_clock in H.
    destruct (first_rule t) as [r|]; [|reflexivity].
    apply canned_clock_free; intros E; subst r; discriminate H.
  - intros now t H. rewrite generateResponse_matchReply.
    unfold matchReply. unfold reads_clock in H.
    destruct (first_rule t) as [[]|]; try discriminate H; simpl; auto.
Qed.

Lemma generateResponse_case_insensitive_witness :
  generateResponse ten_o_clock "Thank You" = generateResponse ten_o_clock "tHANK yOU"
  /\ generateResponse ten_o_clock "thank you"
     = generateResponse a_second_later "thank you".
Proof.
  split.
  - apply (proj1 generateResponse_case_insensitive).
    repeat (apply cv_cons;
            [first [left; reflexivity
                   | right; left; split; reflexivity
                   | right; right; split; reflexivity]|]).
    apply cv_nil.
  - apply (proj1 (proj2 generateResponse_case_insensitive)). reflexivity.
Defined.

(** C4: the rules are tried in the order greeting, well-being, appointment,
    weather, help, thanks, farewell, identity, time, date; the reply is the
    canned reply of the first rule a keyword of which occurs in the
    lower-cased input, so an earlier rule wins over a later one that matches
    too (thanks over farewell), and the fallback is returned when no keyword
    occurs. *)
Theorem generateResponse_priority :
  (forall (now : Date) (t : string), generateResponse now t = matchReply now t)
  /\ (forall (now : Date) (t : string) (before : list Rule) (r : Rule)
             (after : list Rule),
         priority = (before ++ r :: after)%list ->
         matches (Js.toLowerCase t) r = true ->
         (forall r', In r' before -> matches (Js.toLowerCase t) r' = false) ->
         generateResponse now t = canned r now)
  /\ (forall (now : Date) (t : string),
         Js.includes (Js.toLowerCase t) "thank" = true ->
         Js.includes (Js.toLowerCase t) "bye" = true ->
         (forall r', In r' [r_greeting; r_wellbeing; r_appointment; r_weather; r_help] ->
                     matches (Js.toLowerCase t) r' = false) ->
         generateResponse now t = reply_thanks)
  /\ (forall (now : Date) (t : string),
         (forall r, matches (Js.toLowerCase t) r = false) ->
         generateResponse now t = reply_fallback).
Proof.
  assert (forall now t before r after,
             priority = (before ++ r :: after)%list ->
             matches (Js.toLowerCase t) r = true ->
             (forall r', In r' before -> matches (Js.toLowerCase t) r' = false) ->
             generateResponse now t = canned r now) as First.
  { intros now t before r after E Hr Hb.
    rewrite generateResponse_matchReply. unfold matchReply, first_rule.
    rewrite E, (find_first _ before r after Hb Hr). reflexivity. }
  repeat split.
  - apply generateResponse_matchReply.
  - exact First.
  - intros now t Hthank _ Hb.
    apply (First now t [r_greeting; r_wellbeing; r_appointment; r_weather; r_help]
                 r_thanks [r_farewell; r_identity; r_time; r_date]).
    + reflexivity.
    + unfold matches. simpl. rewrite Hthank. reflexivity.
    + exact Hb.
  - intros now t Hnone.
    rewrite generateResponse_matchReply. unfold matchReply, first_rule.
    rewrite find_none_all; [reflexivity|]. intros r _. apply Hnone.
Qed.

Lemma generateResponse_priority_witness :
  generateResponse ten_o_clock "Thanks a lot, bye!" = reply_thanks
  /\ generateResponse ten_o_clock "thank you for the appointment" = reply_appointment
  /\ generateResponse ten_o_clock "see you tomorrow" = reply_fallback.
Proof.
  split; [|split].
  - apply (proj1 (proj2 (proj2 generateResponse_priority))); try reflexivity.
    intros r' H. simpl in H.
    repeat (destruct H as [H | H]; [subst r'; reflexivity|]). contradiction.
  - apply (proj1 (proj2 generateResponse_priority) ten_o_clock _
                 [r_greeting; r_wellbeing] r_appointment
                 [r_weather; r_help; r_thanks; r_farewell; r_identity; r_time; r_date]);
      try reflexivity.
    intros r' H. simpl in H.
    repeat (destruct H as [H | H]; [subst r'; reflexivity|]). contradiction.
  - apply (proj2 (proj2 (proj2 generateResponse_priority))).
    intros r. destruct r; reflexivity.
Defined.

(** C5: the reply to "Hi there" is exactly the greeting reply, and the reply
    to "what time is it" contains the locale rendering of the current time. *)
Theorem generateResponse_scenarios :
  forall now : Date,
    generateResponse now "Hi there"
    = "Hello! It's great to hear from you. What can I assist you with?"
    /\ generateResponse now "what time is it"
       = "The current time is " ++ toLocaleTimeString now ++ "."
    /\ Js.includes (generateResponse now "what time is it")
                   (toLocaleTimeString now) = true.
Proof.
  intros now.
  assert (generateResponse now "what time is it"
          = "The current time is " ++ toLocaleTimeString now ++ ".") as E
      by reflexivity.
  split; [reflexivity|]. split; [exact E|].
  rewrite E. apply includes_middle.
Qed.

(** C10: a keyword is looked for as a substring of the lower-cased input, not
    as a word: every input whose lower-cased text contains "hi" anywhere gets
    the greeting reply, "this" and "nothing" among them. *)
Theorem generateResponse_hi_substring :
  (forall (now : Date) (t : string),
      Js.includes (Js.toLowerCase t) "hi" = true ->
      generateResponse now t = reply_greeting)
  /\ (forall now : Date,
         generateResponse now "this" = reply_greeting
         /\ generateResponse now "nothing" = reply_greeting
         /\ reply_greeting <> reply_fallback).
Proof.
  split.
  - intros now t H. unfold generateResponse. rewrite H, orb_true_r. reflexivity.
  - intros now. repeat split; try reflexivity. discriminate.
Qed.

Lemma generateResponse_hi_substring_witness :
  generateResponse ten_o_clock "Is anything wrong? NotHIng at all"
  = reply_greeting.
Proof. apply (proj1 generateResponse_hi_substring). reflexivity. Defined.

(** ** Doubles: the quotient by 60 *)

(** [Math.floor(seconds / 60)] is followed through the rounding of the
    division: below 2^53 the quotient is rounded by less than its distance to
    the next whole number of minutes, so that the floor is the integer
    quotient. *)

Section Doubles.

Local Open Scope Z_scope.

Lemma bits_bounds (p : positive) : 2 ^ (bits p - 1) <= Zpos p < 2 ^ bits p.
Proof.
  unfold bits. induction p as [p IH|p IH|]; cbn [digits2_pos].
  - rewrite Pos2Z.inj_succ.
    replace (Z.succ (Zpos (digits2_pos p)) - 1) with (Z.succ (Zpos (digits2_pos p) - 1)) by lia.
    rewrite !Z.pow_succ_r by lia. lia.
  - rewrite Pos2Z.inj_succ.
    replace (Z.succ (Zpos (digits2_pos p)) - 1) with (Z.succ (Zpos (digits2_pos p) - 1)) by lia.
    rewrite !Z.pow_succ_r by lia. lia.
  - simpl. lia.
Qed.

Lemma bits_unique (p : positive) (k : Z) :
  2 ^ (k - 1) <= Zpos p < 2 ^ k -> bits p = k.
Proof.
  intros H. pose proof (bits_bounds p) as B.
  assert (0 < bits p) by (unfold bits; lia).
  assert (0 < k).
  { destruct (Z_lt_le_dec 0 k) as [L|L]; [exact L|].
    assert (2 ^ k <= 1).
    { destruct (Z.eq_dec k 0) as [->|N]; [simpl; lia|].
      rewrite Z.pow_neg_r by lia. lia. }
    lia. }
  destruct (Z.lt_trichotomy (bits p) k) as [L | [E | G]]; [|exact E|].
  - assert (2 ^ bits p <= 2 ^ (k - 1)) by (apply Z.pow_le_mono_r; lia). lia.
  - assert (2 ^ k <= 2 ^ (bits p - 1)) by (apply Z.pow_le_mono_r; lia). lia.
Qed.

Lemma bits_le (p : positive) (k : Z) : 0 <= k -> Zpos p < 2 ^ k -> bits p <= k.
Proof.
  intros K H. pose proof (bits_bounds p) as B.
  destruct (Z_le_gt_dec (bits p) k) as [L|G]; [exact L|].
  assert (2 ^ k <= 2 ^ (bits p - 1)) by (apply Z.pow_le_mono_r; lia). lia.
Qed.

Lemma bits_pos (p : positive) : 1 <= bits p.
Proof. unfold bits. lia. Qed.

Lemma iter_xO (p d : positive) : Zpos (Pos.iter xO p d) = Zpos p * 2 ^ Zpos d.
Proof.
  induction d as [|d IH] using Pos.peano_ind.
  - simpl. lia.
  - rewrite Pos.iter_succ, Pos2Z.inj_succ, Z.pow_succ_r by lia.
    rewrite Pos2Z.inj_xO, IH. lia.
Qed.

Lemma fexp_norm (d e : Z) :
  -1074 <= d + e - 53 -> fexp 53 1024 (d + e) - e = d - 53.
Proof. unfold fexp, emin. lia. Qed.

Lemma shr_zero (mrs : shr_record) (e n : Z) : n = 0 -> shr mrs e n = (mrs, e).
Proof. intros ->. reflexivity. Qed.

Lemma shr_one (mrs : shr_record) (e n : Z) :
  n = 1 -> shr mrs e n = (shr_1 mrs, e + 1).
Proof. intros ->. reflexivity. Qed.

Lemma shr_1_pos (m : Z) (r s : bool) :
  0 <= m ->
  shr_1 (Build_shr_record m r s)
  = Build_shr_record (m / 2) (Z.odd m) (r || s).
Proof.
  intros H. destruct m as [|[p|p|]|p]; try lia; unfold shr_1, Z.odd.
  - reflexivity.
  - replace (Zpos p~1 / 2) with (Zpos p); [reflexivity|].
    apply (Z.div_unique _ _ _ 1); lia.
  - replace (Zpos p~0 / 2) with (Zpos p); [reflexivity|].
    apply (Z.div_unique _ _ _ 0); lia.
  - reflexivity.
Qed.

Lemma loc_roundtrip (m : Z) (l : location) :
  loc_of_shr_record (shr_record_of_loc m l) = l.
Proof. destruct l as [|[| |]]; reflexivity. Qed.

Lemma shr_m_of_loc (m : Z) (l : location) : shr_m (shr_record_of_loc m l) = m.
Proof. destruct l as [|[| |]]; reflexivity. Qed.

(** Rounding a mantissa of 53 bits that is exact leaves it. *)
Lemma binary_round_aux_exact (sx : bool) (m : positive) (e : Z) :
  bits m = 53 -> -1074 <= e <= 971 ->
  binary_round_aux 53 1024 sx (Zpos m) e loc_Exact = S754_finite sx m e.
Proof.
  intros Hd He. unfold binary_round_aux, shr_fexp.
  change (Zdigits2 (Zpos m)) with (bits m). rewrite Hd.
  rewrite (shr_zero _ _ _ (eq_trans (fexp_norm 53 e ltac:(lia)) eq_refl)).
  cbn [shr_record_of_loc shr_m loc_of_shr_record round_nearest_even].
  change (Zdigits2 (Zpos m)) with (bits m). rewrite Hd.
  rewrite (shr_zero _ _ _ (eq_trans (fexp_norm 53 e ltac:(lia)) eq_refl)).
  cbn [shr_m]. replace (e <=? 1024 - 53) with true by (symmetry; apply Z.leb_le; lia).
  reflexivity.
Qed.

(** The double of a positive integer below 2^53: the integer, shifted to 53
    bits. *)
Lemma binary_round_small (sx : bool) (p : positive) :
  Zpos p < 2 ^ 53 ->
  exists m : positive,
    binary_round 53 1024 sx p 0 = S754_finite sx m (bits p - 53)
    /\ Zpos m = Zpos p * 2 ^ (53 - bits p) /\ bits m = 53.
Proof.
  intros Hp. pose proof (bits_le p 53 ltac:(lia) Hp) as Hd.
  pose proof (bits_pos p) as Hd1. pose proof (bits_bounds p) as B.
  unfold binary_round, shl_align.
  change (Zpos (digits2_pos p)) with (bits p).
  replace (fexp 53 1024 (bits p + 0)) with (bits p - 53) by (unfold fexp, emin; lia).
  replace (bits p - 53 - 0) with (bits p - 53) by lia.
  destruct (bits p - 53) as [|k|k] eqn:E; [| lia |].
  - exists p. split; [|split].
    + apply binary_round_aux_exact; lia.
    + replace (53 - bits p) with 0 by lia. simpl. lia.
    + lia.
  - assert (bits (Pos.iter xO p k) = 53) as Hk.
    { apply bits_unique. rewrite iter_xO.
      replace (2 ^ (53 - 1)) with (2 ^ (bits p - 1) * 2 ^ Zpos k)
        by (rewrite <- Z.pow_add_r by lia; f_equal; lia).
      replace (2 ^ 53) with (2 ^ bits p * 2 ^ Zpos k)
        by (rewrite <- Z.pow_add_r by lia; f_equal; lia).
      assert (0 < 2 ^ Zpos k) by (apply Z.pow_pos_nonneg; lia).
      split; [apply Z.mul_le_mono_nonneg_r | apply Z.mul_lt_mono_pos_r]; lia. }
    exists (Pos.iter xO p k). split; [|split].
    + apply binary_round_aux_exact; [exact Hk | lia].
    + rewrite iter_xO. f_equal. f_equal. lia.
    + exact Hk.
Qed.

Lemma Zdigits2_pos (q k : Z) :
  2 ^ (k - 1) <= q < 2 ^ k -> Zdigits2 q = k.
Proof.
  intros H. destruct q as [|p|p].
  - destruct (Z_lt_le_dec k 1) as [L | G].
    + destruct (Z_lt_le_dec k 0) as [L' | G'].
      * assert (2 ^ k = 0) by (apply Z.pow_neg_r; lia). lia.
      * replace k with 0 by lia. reflexivity.
    + assert (0 < 2 ^ (k - 1)) by (apply Z.pow_pos_nonneg; lia). lia.
  - apply (bits_unique p k H).
  - assert (0 <= 2 ^ (k - 1)) by (apply Z.pow_nonneg; lia). lia.
Qed.

(** The second pass of [binary_round_aux], on a rounded mantissa. *)
Lemma renormalise (M1 e : Z) :
  2 ^ 52 <= M1 <= 2 ^ 53 -> -1000 <= e <= 900 ->
  exists (mrs : shr_record) (E : Z) (M : positive),
    shr_fexp 53 1024 M1 e loc_Exact = (mrs, E)
    /\ shr_m mrs = Zpos M /\ e <= E <= e + 1
    /\ Zpos M * 2 ^ (E - e) = M1.
Proof.
  intros HM He. unfold shr_fexp.
  destruct (Z.eq_dec M1 (2 ^ 53)) as [-> | N].
  - change (Zdigits2 (2 ^ 53)) with 54.
    rewrite (shr_one _ _ _ (eq_trans (fexp_norm 54 e ltac:(lia)) eq_refl)).
    exists (shr_1 (shr_record_of_loc (2 ^ 53) loc_Exact)), (e + 1), (4503599627370496)%positive.
    repeat split; try lia.
    replace (e + 1 - e) with 1 by lia. reflexivity.
  - rewrite (Zdigits2_pos M1 53) by (change (53 - 1) with 52; lia).
    rewrite (shr_zero _ _ _ (eq_trans (fexp_norm 53 e ltac:(lia)) eq_refl)).
    destruct M1 as [|M|M]; try (exfalso; change (2 ^ 52) with 4503599627370496 in HM; lia).
    exists (shr_record_of_loc (Zpos M) loc_Exact), e, M.
    repeat split; try lia.
    replace (e - e) with 0 by lia. simpl. lia.
Qed.

(** [binary_round_aux] on a quotient of 53 or 54 bits: what it returns, as a
    multiple [M'] of the unit of the quotient. *)
Lemma binary_round_aux_quotient (sx : bool) (q e : Z) (loc : location) :
  2 ^ 52 <= q < 2 ^ 54 -> -1000 <= e <= 800 ->
  exists (M : positive) (E : Z),
    binary_round_aux 53 1024 sx q e loc = S754_finite sx M E
    /\ e <= E <= e + 2
    /\ (loc = loc_Exact -> Z.even q = true -> Zpos M * 2 ^ (E - e) = q)
    /\ (loc <> loc_Exact -> q <= Zpos M * 2 ^ (E - e) <= q + 1).
Proof.
  intros Hq He. unfold binary_round_aux.
  destruct (Z_lt_le_dec q (2 ^ 53)) as [L | G].
  - unfold shr_fexp at 1.
    rewrite (Zdigits2_pos q 53) by (change (53 - 1) with 52; lia).
    rewrite (shr_zero _ _ _ (eq_trans (fexp_norm 53 e ltac:(lia)) eq_refl)).
    rewrite shr_m_of_loc, loc_roundtrip.
    assert (2 ^ 52 <= round_nearest_even q loc <= 2 ^ 53
            /\ (loc = loc_Exact -> round_nearest_even q loc = q)
            /\ q <= round_nearest_even q loc <= q + 1) as (B & X & I).
    { destruct loc as [|[| |]]; cbn [round_nearest_even];
        try destruct (Z.even q); repeat split; try lia; discriminate. }
    destruct (renormalise _ e B ltac:(lia)) as (mrs & E & M & -> & Hm & HE & HM).
    rewrite Hm. exists M, E.
    replace (E <=? 1024 - 53) with true by (symmetry; apply Z.leb_le; lia).
    rewrite HM. repeat split; try lia.
    intros Hl _. apply X, Hl.
  - unfold shr_fexp at 1.
    rewrite (Zdigits2_pos q 54) by (change (54 - 1) with 53; lia).
    rewrite (shr_one _ _ _ (eq_trans (fexp_norm 54 e ltac:(lia)) eq_refl)).
    assert (exists r s, shr_record_of_loc q loc = Build_shr_record q r s
                        /\ (loc = loc_Exact -> r || s = false)
                        /\ (loc <> loc_Exact -> r || s = true))
      as (r & s & -> & Sx & Si).
    { destruct loc as [|[| |]]; cbn [shr_record_of_loc];
        do 2 eexists; (split; [reflexivity|]); split; intros H;
        try reflexivity; try discriminate; try (exfalso; apply H; reflexivity). }
    rewrite shr_1_pos by (change (2 ^ 53) with 9007199254740992 in G; lia).
    cbn [shr_m].
    assert (q = 2 * (q / 2) + (if Z.odd q then 1 else 0)) as Hdiv.
    { rewrite (Z.div_mod q 2) at 1 by lia. rewrite Zmod_odd. reflexivity. }
    change (2 ^ 52) with 4503599627370496 in *.
    change (2 ^ 53) with 9007199254740992 in *.
    change (2 ^ 54) with 18014398509481984 in *.
    set (h := q / 2) in *.
    set (M1 := round_nearest_even h
                 (loc_of_shr_record (Build_shr_record h (Z.odd q) (r || s)))).
    assert (4503599627370496 <= M1 <= 9007199254740992
            /\ (loc = loc_Exact -> Z.even q = true -> 2 * M1 = q)
            /\ (loc <> loc_Exact -> q <= 2 * M1 <= q + 1)) as (B & X & I).
    { subst M1. rewrite <- Z.negb_odd.
      destruct (Z.odd q), (r || s) eqn:Ers;
        cbn [loc_of_shr_record round_nearest_even negb];
        try destruct (Z.even h); repeat split; try lia;
        try discriminate;
        try match goal with
            | Hx : loc <> loc_Exact |- _ => specialize (Si Hx); discriminate
            | Hx : loc = loc_Exact |- _ => specialize (Sx Hx); discriminate
            end. }
    destruct (renormalise M1 (e + 1) B ltac:(lia))
      as (mrs & E & M & -> & Hm & HE & HM).
    rewrite Hm. exists M, E.
    replace (E <=? 1024 - 53) with true by (symmetry; apply Z.leb_le; lia).
    assert (Zpos M * 2 ^ (E - e) = 2 * M1) as HM'.
    { replace (E - e) with (Z.succ (E - (e + 1))) by lia.
      rewrite Z.pow_succ_r by lia. lia. }
    rewrite HM'. split; [reflexivity|]. split; [lia|]. split; [exact X | exact I].
Qed.

Lemma of_Z_60 : Number.of_Z 60 = S754_finite false sixty (-47).
Proof. reflexivity. Qed.

Lemma SFdiv_core_60 (m1 : positive) (e1 : Z) :
  bits m1 = 53 -> -52 <= e1 <= 0 ->
  SFdiv_core_binary 53 1024 (Zpos m1) e1 (Zpos sixty) (-47)
  = (Zpos m1 * 2 ^ 53 / Zpos sixty, e1 - 6,
     new_location (Zpos sixty) ((Zpos m1 * 2 ^ 53) mod Zpos sixty)).
Proof.
  intros Hd He. unfold SFdiv_core_binary.
  change (Zdigits2 (Zpos m1)) with (bits m1). rewrite Hd.
  change (Zdigits2 (Zpos sixty)) with 53.
  cbv zeta.
  replace (Z.min (fexp 53 1024 (53 + e1 - (53 + -47))) (e1 - -47)) with (e1 - 6)
    by (unfold fexp, emin; lia).
  replace (e1 - -47 - (e1 - 6)) with 53 by lia.
  cbv iota. rewrite Z.shiftl_mul_pow2 by lia.
  unfold Z.div, Z.modulo.
  destruct (Z.div_eucl (Zpos m1 * 2 ^ 53) (Zpos sixty)) as [q r].
  reflexivity.
Qed.

Lemma new_location_sixty (r : Z) :
  (r = 0 -> new_location (Zpos sixty) r = loc_Exact)
  /\ (r <> 0 -> new_location (Zpos sixty) r <> loc_Exact).
Proof.
  unfold new_location. change (Z.even (Zpos sixty)) with true. cbv iota.
  unfold new_location_even. split; intros H.
  - rewrite H. reflexivity.
  - apply Z.eqb_neq in H. rewrite H. discriminate.
Qed.

(** Between two multiples of a power of two above 60. *)
Lemma between_minutes (t q P : Z) :
  64 <= P -> 0 <= t -> 60 * q < t * P < 60 * q + 60 ->
  (t / 60) * P + 1 <= q /\ q + 2 <= (t / 60) * P + P /\ t mod 60 <> 0.
Proof.
  intros HP Ht H.
  pose proof (Z.div_mod t 60 ltac:(lia)) as E.
  pose proof (Z.mod_pos_bound t 60 ltac:(lia)) as B.
  set (n := t / 60) in *. set (m := t mod 60) in *.
  assert (t * P = 60 * (n * P) + m * P) as EP by (rewrite E; ring).
  destruct (Z.eq_dec m 0) as [Z | NZ].
  - rewrite Z in EP. exfalso. lia.
  - assert (1 * P <= m * P) by (apply Z.mul_le_mono_nonneg_r; lia).
    assert (m * P <= 59 * P) by (apply Z.mul_le_mono_nonneg_r; lia).
    lia.
Qed.

(** [Math.floor (x / 60)] on doubles, for an integer [x] below 2^53 in
    absolute value, is the integer quotient rounded down. *)
Lemma floor_div_sixty (sx : bool) (p : positive) :
  Zpos p < 2 ^ 53 ->
  Number.floor (Number.div (binary_round 53 1024 sx p 0) (Number.of_Z 60))
  = Some (signed sx p / 60).
Proof.
  intros Hp.
  destruct (binary_round_small sx p Hp) as (m1 & -> & Hm1 & Hd1).
  pose proof (bits_le p 53 ltac:(lia) Hp) as Hd. pose proof (bits_pos p) as Hd'.
  rewrite of_Z_60. unfold Number.div, SFdiv.
  rewrite (SFdiv_core_60 m1 (bits p - 53) Hd1 ltac:(lia)).
  rewrite xorb_false_r.
  set (t := Zpos p) in *. set (j := 59 - bits p).
  assert (0 < 2 ^ (53 - bits p)) as P0pos by (apply Z.pow_pos_nonneg; lia).
  assert (2 ^ j = 2 ^ (53 - bits p) * 64) as HP.
  { unfold j. replace (59 - bits p) with (53 - bits p + 6) by lia.
    rewrite Z.pow_add_r by lia. reflexivity. }
  assert (64 <= 2 ^ j) as HP64 by lia.
  assert (Zpos m1 * 2 ^ 53 = t * 2 ^ j * 2 ^ 47) as HX.
  { rewrite Hm1, HP. change (2 ^ 53) with (64 * 2 ^ 47). ring. }
  assert (Zpos sixty = 60 * 2 ^ 47) as H60 by reflexivity.
  assert (Zpos m1 * 2 ^ 53 / Zpos sixty = t * 2 ^ j / 60) as Hq.
  { rewrite HX, H60. apply Z.div_mul_cancel_r; [lia | discriminate]. }
  assert ((Zpos m1 * 2 ^ 53) mod Zpos sixty = (t * 2 ^ j) mod 60 * 2 ^ 47) as Hr.
  { rewrite HX, H60. apply Z.mul_mod_distr_r; [lia | discriminate]. }
  rewrite Hq, Hr. clear Hq Hr HX H60.
  set (P := 2 ^ j) in *.
  pose proof (Z.div_mod (t * P) 60 ltac:(lia)) as Eq.
  pose proof (Z.mod_pos_bound (t * P) 60 ltac:(lia)) as Br.
  set (q := t * P / 60) in *. set (r := (t * P) mod 60) in *.
  pose proof (bits_bounds m1) as Bm. rewrite Hd1 in Bm.
  change (2 ^ (53 - 1)) with 4503599627370496 in Bm.
  change (2 ^ 53) with 9007199254740992 in Bm, Hp.
  assert (t * P = Zpos m1 * 64) as HtP by (rewrite Hm1, HP; ring).
  assert (2 ^ 52 <= q < 2 ^ 54) as Bq.
  { change (2 ^ 52) with 4503599627370496.
    change (2 ^ 54) with 18014398509481984. lia. }
  destruct (binary_round_aux_quotient sx q (bits p - 53 - 6)
              (new_location (Zpos sixty) (r * 2 ^ 47)) Bq ltac:(lia))
    as (M & E & -> & BE & Hx & Hi).
  unfold Number.floor. cbv zeta.
  replace (0 <=? E) with false by (symmetry; apply Z.leb_gt; lia).
  f_equal.
  set (M' := Zpos M * 2 ^ (E - (bits p - 53 - 6))) in *.
  assert (0 < 2 ^ (E - (bits p - 53 - 6))) as Kpos by (apply Z.pow_pos_nonneg; lia).
  assert (0 < 2 ^ (- E)) as Epos by (apply Z.pow_pos_nonneg; lia).
  assert (P = 2 ^ (- E) * 2 ^ (E - (bits p - 53 - 6))) as HPE.
  { unfold P, j. rewrite <- Z.pow_add_r by lia. f_equal. lia. }
  assert ((if sx then Zneg M else Zpos M) / 2 ^ (- E)
          = (if sx then - M' else M') / P) as ->.
  { rewrite HPE. unfold M'.
    rewrite <- (Z.div_mul_cancel_r _ (2 ^ (- E)) (2 ^ (E - (bits p - 53 - 6))))
      by lia.
    f_equal. destruct sx; [|reflexivity].
    change (Zneg M) with (- Zpos M). ring. }
  assert (signed sx p = if sx then - t else t) as -> by (destruct sx; reflexivity).
  destruct (new_location_sixty (r * 2 ^ 47)) as [Lx Li].
  destruct (Z.eq_dec r 0) as [R0 | RN].
  - (* the quotient is exact *)
    assert (Z.even q = true) as Ev.
    { assert (15 * q = 16 * (Zpos m1)) as H15 by lia.
      assert (Z.even (15 * q) = true) as H by (rewrite H15, Z.even_mul; reflexivity).
      rewrite Z.even_mul in H. exact H. }
    specialize (Hx (Lx ltac:(rewrite R0; reflexivity)) Ev).
    rewrite Hx.
    rewrite <- (Z.div_mul_cancel_r (if sx then - t else t) 60 P) by lia.
    rewrite <- (Z.div_mul_cancel_l (if sx then - q else q) P 60) by lia.
    f_equal. destruct sx; lia.
  - (* the quotient is rounded, within its unit *)
    assert (r * 2 ^ 47 <> 0) as RN'.
    { change (2 ^ 47) with 140737488355328. lia. }
    specialize (Hi (Li RN')).
    destruct (between_minutes t q P HP64 ltac:(unfold t; lia) ltac:(lia))
      as (Lo & Hi' & Hm).
    pose proof (Z.div_mod t 60 ltac:(lia)) as Et.
    pose proof (Z.mod_pos_bound t 60 ltac:(lia)) as Bt.
    set (n := t / 60) in *. set (m := t mod 60) in *.
    destruct sx.
    + transitivity (- n - 1).
      * symmetry. apply (Z.div_unique _ _ _ ((n + 1) * P - M')); [lia | ring].
      * apply (Z.div_unique _ _ _ (60 - m)); lia.
    + symmetry. apply (Z.div_unique _ _ _ (M' - n * P)); [lia | unfold n; ring].
Qed.

End Doubles.

(** Every integer up to 2^53 - 1 in absolute value is a double. *)
Lemma holds_safe (s : Z) :
  (Z.abs s <= MAX_SAFE_INTEGER)%Z -> Number.holds s = true.
Proof.
  unfold MAX_SAFE_INTEGER. intros Hs.
  destruct s as [|p|p]; [reflexivity | |];
    unfold Number.holds, Number.of_Z, binary_normalize;
    [destruct (binary_round_small false p) as (m & -> & Hm & _)
    |destruct (binary_round_small true p) as (m & -> & Hm & _)];
    try (change (2 ^ 53)%Z with 9007199254740992%Z; lia);
    pose proof (bits_le p 53 ltac:(lia)
                  ltac:(change (2 ^ 53)%Z with 9007199254740992%Z; lia)) as Hd;
    cbv zeta; destruct (0 <=? bits p - 53)%Z eqn:E.
  - apply Z.leb_le in E. apply Z.eqb_eq.
    replace (bits p - 53)%Z with 0%Z by lia.
    replace (53 - bits p)%Z with 0%Z in Hm by lia. simpl in *. lia.
  - apply Z.eqb_eq. rewrite Hm. f_equal. f_equal. lia.
  - apply Z.leb_le in E. apply Z.eqb_eq.
    replace (bits p - 53)%Z with 0%Z by lia.
    replace (53 - bits p)%Z with 0%Z in Hm by lia. simpl in *. lia.
  - apply Z.eqb_eq. change (Z.neg m) with (- Z.pos m)%Z.
    change (Z.neg p) with (- Z.pos p)%Z. rewrite Hm.
    replace (- (bits p - 53))%Z with (53 - bits p)%Z by lia. ring.
Qed.

(** [Math.floor(seconds / 60)] on doubles is the integer quotient, for a
    number of seconds up to 2^53 - 1 in absolute value. *)
Lemma floor_div_safe (s : Z) :
  (Z.abs s <= MAX_SAFE_INTEGER)%Z ->
  Number.floor (Number.div (Number.of_Z s) (Number.of_Z 60)) = Some (s / 60)%Z.
Proof.
  unfold MAX_SAFE_INTEGER. intros Hs. destruct s as [|p|p].
  - reflexivity.
  - apply (floor_div_sixty false p).
    change (2 ^ 53)%Z with 9007199254740992%Z. lia.
  - apply (floor_div_sixty true p).
    change (2 ^ 53)%Z with 9007199254740992%Z. lia.
Qed.

(** Up to 2^53 - 1 in absolute value, [formatDuration] on doubles is
    [formatDuration] on integers. *)
Lemma formatDuration_double_exact (s : Z) :
  (Z.abs s <= MAX_SAFE_INTEGER)%Z ->
  formatDuration_double s = Some (formatDuration s).
Proof.
  intros Hs. unfold formatDuration_double.
  rewrite (holds_safe s Hs), (floor_div_safe s Hs). cbv zeta.
  unfold Number.toString. unfold MAX_SAFE_INTEGER in *.
  pose proof (Z.div_mod s 60 ltac:(lia)) as E.
  pose proof (Z.mod_pos_bound s 60 ltac:(lia)) as B.
  pose proof (Z.rem_bound_abs s 60 ltac:(lia)) as R.
  replace (Z.abs (s / 60) <=? 9007199254740991)%Z with true
    by (symmetry; apply Z.leb_le; lia).
  replace (Z.abs (Z.rem s 60) <=? 9007199254740991)%Z with true
    by (symmetry; apply Z.leb_le; lia).
  reflexivity.
Qed.

(** ** [formatDuration]: theorem *)

Lemma formatDuration_double_samples :
  forallb (fun s => match formatDuration_double s with
                    | Some r => String.eqb r (formatDuration s)
                    | None => false
                    end) duration_samples = true.
Proof. vm_compute. reflexivity. Qed.

(** C6, as the code falsifies it: 67553994410557496 is a double, and so a
    number of seconds the function can be given; its quotient by 60 rounds up
    to the next double, so that the minutes field is 1125899906842625, one
    more than 67553994410557496 div 60. *)
Lemma formatDuration_rounds_large_minutes :
  Number.holds 67553994410557496 = true
  /\ formatDuration_double 67553994410557496 = Some "1125899906842625:56"
  /\ (67553994410557496 / 60 = 1125899906842624)%Z
  /\ Js.parseDecimal "1125899906842625" <> Some (67553994410557496 / 60)%Z.
Proof. vm_compute. repeat split; discriminate. Qed.

(** C6, amended: for a non-negative number of seconds up to 2^53 - 1 (the
    integers a double counts exactly), [formatDuration] gives the minutes
    [s / 60] and the seconds [s mod 60], each in decimal and padded with zeros
    on the left to two digits, with a colon between them; the minutes are not
    reduced modulo 60; and the function on doubles, where the division
    rounds, gives this same text.  0 gives 00:00, 65 gives 01:05 and 3661
    gives 61:01. *)
Theorem formatDuration_minutes_seconds :
  (forall s : Z, (0 <= s)%Z -> (s <= MAX_SAFE_INTEGER)%Z ->
     exists mm ss : string,
       formatDuration s = mm ++ ":" ++ ss
       /\ mm = Js.padStart (Js.toString (s / 60)) 2 "0"
       /\ ss = Js.padStart (Js.toString (s mod 60)) 2 "0"
       /\ all_digits mm = true /\ all_digits ss = true
       /\ Js.parseDecimal mm = Some (s / 60)%Z
       /\ Js.parseDecimal ss = Some (s mod 60)%Z
       /\ 2 <= String.length mm /\ String.length ss = 2
       /\ ((s / 60 < 10)%Z -> mm = "0" ++ Js.toString (s / 60))
       /\ ((10 <= s / 60)%Z -> mm = Js.toString (s / 60))
       /\ ((s mod 60 < 10)%Z -> ss = "0" ++ Js.toString (s mod 60))
       /\ ((10 <= s mod 60)%Z -> ss = Js.toString (s mod 60))
       /\ formatDuration_double s = Some (mm ++ ":" ++ ss))
  /\ formatDuration 0 = "00:00"
  /\ formatDuration 65 = "01:05"
  /\ formatDuration 3661 = "61:01".
Proof.
  split; [|repeat split; reflexivity].
  intros s Hs Hb.
  assert (0 <= s / 60)%Z as Hm by (apply Z.div_pos; lia).
  assert (0 <= s mod 60 < 60)%Z as Hr by (apply Z.mod_pos_bound; lia).
  exists (Js.padStart (Js.toString (s / 60)) 2 "0"),
         (Js.padStart (Js.toString (s mod 60)) 2 "0").
  repeat split.
  - unfold formatDuration. rewrite Z.rem_mod_nonneg by lia. reflexivity.
  - apply padStart_digits, Hm.
  - apply padStart_digits; lia.
  - apply padStart_parse, Hm.
  - apply padStart_parse; lia.
  - apply padStart_width, Hm.
  - apply padStart_width_two; lia.
  - intros H. apply padStart_short; lia.
  - intros H. apply padStart_long, H.
  - intros H. apply padStart_short; lia.
  - intros H. apply padStart_long, H.
  - rewrite formatDuration_double_exact by lia.
    unfold formatDuration. rewrite Z.rem_mod_nonneg by lia. reflexivity.
Qed.

Lemma formatDuration_minutes_seconds_witness :
  exists mm ss : string,
    formatDuration 3725 = mm ++ ":" ++ ss
    /\ Js.parseDecimal mm = Some 62%Z /\ Js.parseDecimal ss = Some 5%Z.
Proof.
  destruct (proj1 formatDuration_minutes_seconds 3725%Z ltac:(lia)
                  ltac:(unfold MAX_SAFE_INTEGER; lia))
    as (mm & ss & E & _ & _ & _ & _ & Pm & Ps & _).
  exists mm, ss. repeat split; assumption.
Defined.

(** ** The event loop: lemmas *)

Lemma pop_due_none (n : N) (q : list Timer) :
  pop_due n q = None -> Forall (fun t => (n < due t)%N) q.
Proof.
  induction q as [|t q IH]; simpl; intros H.
  - constructor.
  - destruct (due t <=? n)%N eqn:E; [discriminate H|].
    destruct (pop_due n q) as [[t' r]|]; [discriminate H|].
    constructor; [apply N.leb_gt, E | apply IH; reflexivity].
Qed.

Lemma pop_due_some (n : N) (q : list Timer) (t : Timer) (rest : list Timer) :
  pop_due n q = Some (t, rest) ->
  exists l1 l2,
    q = (l1 ++ t :: l2)%list /\ rest = (l1 ++ l2)%list
    /\ (due t <= n)%N /\ Forall (fun x => (n < due x)%N) l1.
Proof.
  revert rest. induction q as [|x q IH]; simpl; intros rest H.
  - discriminate H.
  - destruct (due x <=? n)%N eqn:E.
    + injection H as <- <-. exists [], q.
      repeat split; [apply N.leb_le, E | constructor].
    + destruct (pop_due n q) as [[t' r]|]; [|discriminate H].
      injection H as <- <-.
      destruct (IH r eq_refl) as (l1 & l2 & -> & -> & Hd & Hl).
      exists (x :: l1), l2. repeat split; try assumption.
      constructor; [apply N.leb_gt, E | exact Hl].
Qed.

Lemma due_count_app (n : N) (a b : list Timer) :
  due_count n (a ++ b) = due_count n a + due_count n b.
Proof. unfold due_count. rewrite filter_app, length_app. reflexivity. Qed.

Lemma due_count_none (n : N) (q : list Timer) :
  Forall (fun t => (n < due t)%N) q -> due_count n q = 0.
Proof.
  unfold due_count. induction 1 as [|t q Ht _ IH]; simpl.
  - reflexivity.
  - unfold is_due at 1. apply N.leb_gt in Ht. rewrite Ht. exact IH.
Qed.

Lemma due_count_zero (n : N) (q : list Timer) :
  due_count n q = 0 -> Forall (fun t => (n < due t)%N) q.
Proof.
  unfold due_count. induction q as [|t q IH]; simpl; intros H.
  - constructor.
  - unfold is_due at 1 in H. destruct (due t <=? n)%N eqn:E.
    + discriminate H.
    + constructor; [apply N.leb_gt, E | apply IH, H].
Qed.

Lemma due_count_le_length (n : N) (q : list Timer) :
  due_count n q <= List.length q.
Proof. unfold due_count. apply filter_length_le. Qed.

(** What firing a timer does to the loop: the time and the clock are kept and
    the queue only grows, at its end, by ticks that are not due. *)
Lemma fire_loop (t : Timer) (w : World) :
  now (fire t w) = now w /\ clock (fire t w) = clock w
  /\ exists extra,
       timers (fire t w) = (timers w ++ extra)%list
       /\ Forall (fun x => is_tick x = true /\ (now w < due x)%N) extra.
Proof.
  unfold fire. destruct (cb t) as [| |u|].
  - unfold connected, seq. simpl.
    split; [|split].
    + unfold speak. simpl.
      destruct (synthRef (session w)); simpl;
        destruct (recognitionRef (session w)) as [[]|]; reflexivity.
    + unfold speak. simpl.
      destruct (synthRef (session w)); simpl;
        destruct (recognitionRef (session w)) as [[]|]; reflexivity.
    + exists [mkTimer (nextId w) (now w + 1000) CbTick]. split.
      * unfold speak. simpl.
        destruct (synthRef (session w)); simpl;
          destruct (recognitionRef (session w)) as [[]|]; reflexivity.
      * constructor; [|constructor]. split; [reflexivity | simpl; lia].
  - repeat split. exists []. rewrite app_nil_r. split; [reflexivity|constructor].
  - unfold reply, seq, speak. simpl.
    destruct (synthRef (session w)); simpl;
      (repeat split; exists []; rewrite app_nil_r; split; [reflexivity|constructor]).
  - repeat split. exists [mkTimer (tid t) (now w + 1000) CbTick]. split.
    + reflexivity.
    + constructor; [|constructor]. split; [reflexivity | simpl; lia].
Qed.

Lemma is_due_true (n : N) (t : Timer) : (due t <= n)%N -> is_due n t = true.
Proof. intros H. apply N.leb_le, H. Qed.

Lemma due_count_popped (n : N) (q : list Timer) (t : Timer) (rest : list Timer) :
  pop_due n q = Some (t, rest) -> due_count n q = S (due_count n rest).
Proof.
  intros H. destruct (pop_due_some n q t rest H) as (l1 & l2 & -> & -> & Hd & _).
  rewrite !due_count_app. unfold due_count at 2. simpl.
  rewrite (is_due_true n t Hd). simpl. fold (due_count n l2). lia.
Qed.

Lemma due_count_fired (t : Timer) (w : World) :
  due_count (now (fire t w)) (timers (fire t w)) = due_count (now w) (timers w).
Proof.
  destruct (fire_loop t w) as (-> & _ & extra & -> & Hx).
  rewrite due_count_app, (due_count_none _ extra); [lia|].
  eapply Forall_impl; [|exact Hx]. intros x [_ H]. exact H.
Qed.

(** The fuel [run_due] is given is enough: afterwards no timer is due. *)
Lemma run_due_quiet (fuel : nat) (w : World) :
  due_count (now w) (timers w) <= fuel -> quiet (run_due fuel w).
Proof.
  revert w. induction fuel as [|fuel IH]; intros w H; simpl.
  - apply due_count_zero. lia.
  - destruct (pop_due (now w) (timers w)) as [[t rest]|] eqn:E.
    + apply IH. rewrite due_count_fired. simpl.
      rewrite (due_count_popped _ _ _ _ E) in H. lia.
    + apply pop_due_none, E.
Qed.

Lemma tick_ms_quiet (w : World) : quiet (tick_ms w).
Proof. unfold tick_ms. apply run_due_quiet. simpl. apply due_count_le_length. Qed.

Lemma run_due_loop (fuel : nat) (w : World) :
  now (run_due fuel w) = now w /\ clock (run_due fuel w) = clock w.
Proof.
  revert w. induction fuel as [|fuel IH]; intros w; simpl.
  - split; reflexivity.
  - destruct (pop_due (now w) (timers w)) as [[t rest]|].
    + destruct (IH (fire t (set_timers rest w))) as [-> ->].
      destruct (fire_loop t (set_timers rest w)) as (-> & -> & _).
      split; reflexivity.
    + split; reflexivity.
Qed.

Lemma tick_ms_loop (w : World) :
  now (tick_ms w) = (now w + 1)%N /\ clock (tick_ms w) = clock w.
Proof.
  unfold tick_ms.
  destruct (run_due_loop (List.length (timers (set_now (now w + 1) w)))
                         (set_now (now w + 1) w)) as [-> ->].
  split; reflexivity.
Qed.

Lemma advance_succ (ms : N) (w : World) :
  advance (N.succ ms) w = advance ms (tick_ms w).
Proof. unfold advance. apply N.iter_succ_r. Qed.

Lemma advance_loop (ms : N) (w : World) :
  now (advance ms w) = (now w + ms)%N /\ clock (advance ms w) = clock w.
Proof.
  revert w. induction ms as [|ms IH] using N.peano_ind; intros w.
  - split; [simpl; lia | reflexivity].
  - rewrite advance_succ. destruct (IH (tick_ms w)) as [-> ->].
    destruct (tick_ms_loop w) as [-> ->]. split; [lia | reflexivity].
Qed.

(** ** Invariants of the session across the event loop *)

Section SessionInvariant.

Variable P : Session -> Prop.
Hypothesis P_fire : forall t w, P (session w) -> P (session (fire t w)).

Lemma run_due_invariant (fuel : nat) (w : World) :
  P (session w) -> P (session (run_due fuel w)).
Proof.
  revert w. induction fuel as [|fuel IH]; intros w H; simpl.
  - exact H.
  - destruct (pop_due (now w) (timers w)) as [[t rest]|].
    + apply IH, P_fire. exact H.
    + exact H.
Qed.

Lemma advance_invariant (ms : N) (w : World) :
  P (session w) -> P (session (advance ms w)).
Proof.
  revert w. induction ms as [|ms IH] using N.peano_ind; intros w H.
  - exact H.
  - rewrite advance_succ. apply IH. unfold tick_ms.
    apply run_due_invariant. exact H.
Qed.

End SessionInvariant.

(** ** A pending timeout fires when its time comes *)

Lemma pop_due_split (n : N) (l1 : list Timer) (x : Timer) (l2 : list Timer) :
  pop_due n (l1 ++ x :: l2) =
  match pop_due n l1 with
  | Some (t, r) => Some (t, (r ++ x :: l2)%list)
  | None =>
      if (due x <=? n)%N then Some (x, (l1 ++ l2)%list)
      else match pop_due n l2 with
           | Some (t, r) => Some (t, (l1 ++ x :: r)%list)
           | None => None
           end
  end.
Proof.
  induction l1 as [|y l1 IH]; simpl.
  - reflexivity.
  - destruct (due y <=? n)%N; [reflexivity|].
    rewrite IH. destruct (pop_due n l1) as [[t r]|]; [reflexivity|].
    destruct (due x <=? n)%N; [reflexivity|].
    destruct (pop_due n l2) as [[t r]|]; reflexivity.
Qed.

Lemma pop_due_keeps (P : Timer -> Prop) (n : N) (q : list Timer)
    (t : Timer) (rest : list Timer) :
  pop_due n q = Some (t, rest) -> Forall P q -> P t /\ Forall P rest.
Proof.
  intros E H. destruct (pop_due_some _ _ _ _ E) as (a & b & -> & -> & _ & _).
  apply Forall_app in H. destruct H as [Ha Hb]. inversion Hb; subst.
  split; [assumption | apply Forall_app; split; assumption].
Qed.

Section Awaited.

Variable ours : Timer.
Variable clk : N -> Date.
Variable Q : Session -> Prop.

Hypothesis Q_fire :
  forall w, now w = due ours -> clock w = clk -> Q (session (fire ours w)).
Hypothesis Q_tick :
  forall t w, is_tick t = true -> Q (session w) -> Q (session (fire t w)).

Lemma waiting_fired (t : Timer) (l1 l2 : list Timer) (w : World) :
  Forall (fun x => is_tick x = true) l2 ->
  waiting ours (fire t (set_timers (l1 ++ ours :: l2) w)).
Proof.
  intros H2.
  destruct (fire_loop t (set_timers (l1 ++ ours :: l2) w))
    as (_ & _ & extra & E & Hx).
  exists l1, (l2 ++ extra)%list. split.
  - rewrite E. simpl. rewrite <- app_assoc. reflexivity.
  - apply Forall_app. split; [exact H2|].
    eapply Forall_impl; [|exact Hx]. intros x [Hx' _]. exact Hx'.
Qed.

(** While [ours] is not due it stays in the queue, whatever fires. *)
Lemma run_due_waiting (fuel : nat) (w : World) :
  (now w < due ours)%N -> waiting ours w -> waiting ours (run_due fuel w).
Proof.
  revert w. induction fuel as [|fuel IH]; intros w Hn Hw; simpl.
  - exact Hw.
  - destruct (pop_due (now w) (timers w)) as [[t rest]|] eqn:E; [|exact Hw].
    apply IH.
    + destruct (fire_loop t (set_timers rest w)) as (-> & _). exact Hn.
    + destruct Hw as (l1 & l2 & Eq & H2).
      rewrite Eq, pop_due_split in E.
      destruct (pop_due (now w) l1) as [[t1 r1]|].
      * injection E as <- <-. apply waiting_fired, H2.
      * apply N.leb_gt in Hn. rewrite Hn in E.
        destruct (pop_due (now w) l2) as [[t2 r2]|] eqn:E2; [|discriminate E].
        injection E as <- <-. apply waiting_fired.
        apply (pop_due_keeps _ _ _ _ _ E2 H2).
Qed.

Lemma settled_fired (t : Timer) (rest : list Timer) (w : World) :
  Q (session (fire t (set_timers rest w))) ->
  Forall (fun x => (due x <= now w)%N -> is_tick x = true) rest ->
  settled Q (fire t (set_timers rest w)).
Proof.
  intros HQ Hr. split; [exact HQ|].
  destruct (fire_loop t (set_timers rest w)) as (-> & _ & extra & -> & Hx).
  simpl. apply Forall_app. split; [exact Hr|].
  eapply Forall_impl; [|exact Hx]. intros x [Hx' _] _. exact Hx'.
Qed.

(** At the millisecond [ours] is due it fires, and what fires after it in
    that millisecond is a tick. *)
Lemma run_due_fires (fuel : nat) (w : World) :
  now w = due ours -> clock w = clk ->
  due_count (now w) (timers w) <= fuel ->
  waiting ours w \/ settled Q w ->
  settled Q (run_due fuel w).
Proof.
  revert w. induction fuel as [|fuel IH]; intros w Hn Hc Hf H; simpl.
  - destruct H as [(l1 & l2 & Eq & _) | H]; [|exact H].
    rewrite Eq, due_count_app in Hf. unfold due_count at 2 in Hf.
    simpl in Hf. rewrite is_due_true in Hf by lia. simpl in Hf. lia.
  - destruct (pop_due (now w) (timers w)) as [[t rest]|] eqn:E.
    + assert (now (fire t (set_timers rest w)) = due ours
              /\ clock (fire t (set_timers rest w)) = clk) as [Hn' Hc'].
      { destruct (fire_loop t (set_timers rest w)) as (-> & -> & _).
        split; assumption. }
      apply IH; try assumption.
      * rewrite due_count_fired. simpl.
        rewrite (due_count_popped _ _ _ _ E) in Hf. lia.
      * destruct H as [(l1 & l2 & Eq & H2) | [HQ Hs]].
        -- rewrite Eq, pop_due_split in E.
           destruct (pop_due (now w) l1) as [[t1 r1]|] eqn:E1.
           ++ injection E as <- <-. left. apply waiting_fired, H2.
           ++ assert ((due ours <=? now w)%N = true) as Ed
                by (apply N.leb_le; lia).
              rewrite Ed in E. injection E as <- <-. right. apply settled_fired.
              ** apply Q_fire; assumption.
              ** apply Forall_app. split.
                 --- eapply Forall_impl; [|exact (pop_due_none _ _ E1)].
                     simpl. intros x Hx Hd. lia.
                 --- eapply Forall_impl; [|exact H2]. intros x Hx _. exact Hx.
        -- right.
           destruct (pop_due_keeps _ _ _ _ _ E Hs) as [Ht Hr].
           destruct (pop_due_some _ _ _ _ E) as (_ & _ & _ & _ & Hd & _).
           apply settled_fired; [|exact Hr].
           apply Q_tick; [apply Ht, Hd | exact HQ].
    + destruct H as [(l1 & l2 & Eq & _) | H]; [|exact H].
      rewrite Eq, pop_due_split in E.
      destruct (pop_due (now w) l1) as [[t1 r1]|]; [discriminate E|].
      assert ((due ours <=? now w)%N = true) as Ed by (apply N.leb_le; lia).
      rewrite Ed in E. discriminate E.
Qed.

Lemma tick_ms_waiting (w : World) :
  (now w + 1 < due ours)%N -> waiting ours w -> waiting ours (tick_ms w).
Proof.
  intros Hn Hw. unfold tick_ms. apply run_due_waiting; [exact Hn | exact Hw].
Qed.

Lemma tick_ms_fires (w : World) :
  (now w + 1)%N = due ours -> clock w = clk -> waiting ours w ->
  settled Q (tick_ms w).
Proof.
  intros Hn Hc Hw. unfold tick_ms. apply run_due_fires.
  - exact Hn.
  - exact Hc.
  - simpl. apply due_count_le_length.
  - left. exact Hw.
Qed.

(** After exactly the delay of [ours], [ours] has fired and [Q] holds. *)
Lemma advance_fires (ms : N) (w : World) :
  (now w + N.succ ms)%N = due ours -> clock w = clk -> waiting ours w ->
  settled Q (advance (N.succ ms) w).
Proof.
  revert w. induction ms as [|ms IH] using N.peano_ind; intros w Hn Hc Hw.
  - change (advance (N.succ 0) w) with (tick_ms w).
    apply tick_ms_fires; try assumption; lia.
  - rewrite advance_succ.
    destruct (tick_ms_loop w) as [Hn' Hc'].
    apply IH.
    + rewrite Hn'. lia.
    + rewrite Hc'. exact Hc.
    + apply tick_ms_waiting; [lia | exact Hw].
Qed.

End Awaited.

(** ** The call session: theorems *)

Ltac open_world w :=
  let s := fresh "s" in
  destruct w as [s ? ? ? ?]; destruct s as [? ? ? ? ? ? ? ?]; simpl in *.

Lemma fire_pending (t : Timer) (w : World) :
  at_most_one_pending (session w) -> at_most_one_pending (session (fire t w)).
Proof.
  unfold fire, at_most_one_pending. intros H. open_world w.
  destruct (cb t) as [| |u|]; simpl.
  - unfold connected, seq, speak. simpl.
    destruct synthRef0; simpl; destruct recognitionRef0 as [[]|]; simpl; auto.
  - exact H.
  - unfold reply, seq, speak. simpl.
    destruct synthRef0; simpl; auto.
  - exact H.
Qed.

Lemma onresult_synth (results : list (string * bool)) (w : World) :
  synthRef (session (onresult results w)) = synthRef (session w).
Proof.
  unfold onresult. destruct (collect results "" "") as [i f].
  destruct f; reflexivity.
Qed.

Lemma handle_pending (e : Event) (w : World) :
  at_most_one_pending (session w) -> at_most_one_pending (session (handle e w)).
Proof.
  intros H. destruct e as [| |results| | |ms]; simpl.
  - exact H.
  - unfold at_most_one_pending, endCall, seq. open_world w.
    destruct recognitionRef0; simpl; destruct synthRef0; simpl;
      destruct timerRef0; simpl; auto.
  - unfold at_most_one_pending. rewrite onresult_synth. exact H.
  - exact H.
  - unfold at_most_one_pending in *. simpl.
    destruct (synthRef (session w)) as [[|u q]|]; simpl in *; auto; lia.
  - apply advance_invariant; [apply fire_pending | exact H].
Qed.

Lemma exec_pending (es : list Event) (w w' : World) :
  exec w es = Some w' ->
  at_most_one_pending (session w) -> at_most_one_pending (session w').
Proof.
  revert w. induction es as [|e es IH]; simpl; intros w E H.
  - injection E as <-. exact H.
  - unfold step in E. destruct (enabled w e); [|discriminate E].
    apply (IH _ E), handle_pending, H.
Qed.

(** C9: [speak] empties the speech-synthesis queue before it enqueues the new
    utterance, so the queue then holds that utterance alone, whatever was
    being spoken or waiting; where there is no synthesis it does nothing; and
    in every reachable state at most one utterance is pending. *)
Theorem speak_replaces_pending :
  (forall (w : World) (t : string) (q : list Utterance),
      synthRef (session w) = Some q ->
      synthRef (session (speak t w))
      = Some (synth_speak (mkUtterance t (9 # 10)%Q (1 # 1)%Q (1 # 1)%Q)
                          (synth_cancel q))
      /\ synthRef (session (speak t w))
         = Some [mkUtterance t (9 # 10)%Q (1 # 1)%Q (1 # 1)%Q])
  /\ (forall (w : World) (t : string),
         synthRef (session w) = None -> speak t w = w)
  /\ (forall w : World, reachable w -> at_most_one_pending (session w)).
Proof.
  split; [|split].
  - intros w t q H. unfold speak. rewrite H. split; reflexivity.
  - intros w t H. unfold speak. rewrite H. reflexivity.
  - intros w (r & s & clk & es & E).
    apply (exec_pending es _ _ E).
    unfold at_most_one_pending. destruct r, s; simpl; auto.
Qed.

Lemma speak_replaces_pending_witness :
  synthRef (session (speak "second" (speak "first" (mount true true stopwatch))))
  = Some [mkUtterance "second" (9 # 10)%Q (1 # 1)%Q (1 # 1)%Q].
Proof.
  apply (proj1 speak_replaces_pending _ "second"
               [mkUtterance "first" (9 # 10)%Q (1 # 1)%Q (1 # 1)%Q]).
  reflexivity.
Defined.

(** C8: after [endCall] listening is stopped, the speech queue is empty, no
    interval runs and the status is ended; a second [endCall] from there
    leaves every component of the session as it is.  All it adds is one more
    pending reset to idle. *)
Theorem endCall_idempotent :
  forall w : World,
    resources_stopped (session (endCall w))
    /\ callStatus (session (endCall w)) = ended
    /\ session (endCall (endCall w)) = session (endCall w)
    /\ timers (endCall (endCall w))
       = (timers (endCall w)
            ++ [mkTimer (nextId (endCall w)) (now w + 2000) CbIdle])%list.
Proof.
  intros w. unfold resources_stopped, endCall, seq. open_world w.
  destruct recognitionRef0 as [b|]; simpl; destruct synthRef0 as [q|]; simpl;
    destruct timerRef0 as [i|]; simpl; repeat split; auto; discriminate.
Qed.

(** C1, at the failing input: the user speaks and hangs up at once; half a
    second later the status is still ended and the delayed reply is appended
    to the message list all the same. *)
Theorem reply_appended_after_hangup :
  forall clk : N -> Date,
    let w1 := endCall (onresult [("hello", true)]
                (advance 1500 (startCall (mount true true clk)))) in
    let w2 := advance 500 w1 in
    exec (mount true true clk) hangup_before_reply = Some w2
    /\ callStatus (session w1) = ended
    /\ callStatus (session w2) = ended
    /\ List.length (messages (session w1)) = 2
    /\ messages (session w2)
       = (messages (session w1)
            ++ [mkMessage assistant reply_greeting (clk 2000%N)])%list.
Proof. intros clk. vm_compute. repeat split; reflexivity. Qed.

(** C2, at the failing input: the user hangs up while the call is connecting;
    the connect timeout fires all the same, so the status goes from ended to
    active and then, at the reset, from active to idle. *)
Theorem hangup_while_connecting_reaches_active :
  forall (hasRecognition hasSynth : bool) (clk : N -> Date),
    exec (mount hasRecognition hasSynth clk) hangup_while_connecting <> None
    /\ status_trace (mount hasRecognition hasSynth clk) hangup_while_connecting
       = [idle; connecting; connecting; ended; active; idle].
Proof.
  intros r s clk. destruct r, s; vm_compute; split; try reflexivity; discriminate.
Qed.


Lemma endCall_loop (w : World) :
  now (endCall w) = now w /\ clock (endCall w) = clock w
  /\ exists l,
       timers (endCall w)
       = (l ++ [mkTimer (nextId w) (now w + 2000) CbIdle])%list.
Proof.
  unfold endCall, seq. open_world w.
  destruct recognitionRef0; simpl; destruct synthRef0; simpl;
    destruct timerRef0; simpl; repeat split; eexists; reflexivity.
Qed.

Lemma fire_tick_session (t : Timer) (w : World) :
  is_tick t = true ->
  session (fire t w)
  = session (setCallDuration (fun prev => (prev + 1)%Z) w).
Proof.
  unfold is_tick, fire. destruct (cb t); try discriminate. reflexivity.
Qed.

Lemma connected_session (w : World) :
  callStatus (session (connected w)) = active
  /\ messages (session (connected w)) = [greeting_message (newDate w)].
Proof.
  unfold connected, seq, speak. open_world w.
  destruct synthRef0; simpl; destruct recognitionRef0 as [[]|]; simpl;
    split; reflexivity.
Qed.







(** ** Recognition results: [onresult] and [handleUserSpeech] *)

Lemma append_empty_r (s : string) : s ++ "" = s.
Proof. induction s as [|c s IH]; simpl; [reflexivity | rewrite IH; reflexivity]. Qed.

Lemma append_assoc (a b c : string) : (a ++ b) ++ c = a ++ (b ++ c).
Proof. induction a as [|x a IH]; simpl; [reflexivity | rewrite IH; reflexivity]. Qed.

Lemma collect_spec (results : list (string * bool)) (i f : string) :
  collect results i f = (i ++ joined_interims results, f ++ spaced_finals results).
Proof.
  revert i f. induction results as [|[t [|]] rest IH]; intros i f; simpl.
  - rewrite !append_empty_r. reflexivity.
  - rewrite IH, !append_assoc. reflexivity.
  - rewrite IH, !append_assoc. reflexivity.
Qed.

Lemma spaced_finals_none (results : list (string * bool)) :
  existsb snd results = false -> spaced_finals results = "".
Proof.
  induction results as [|[t [|]] rest IH]; simpl; intros H.
  - reflexivity.
  - discriminate H.
  - apply IH, H.
Qed.

Lemma spaced_finals_some (results : list (string * bool)) :
  existsb snd results = true -> spaced_finals results <> "".
Proof.
  induction results as [|[t [|]] rest IH]; simpl; intros H.
  - discriminate H.
  - destruct t; discriminate.
  - apply IH, H.
Qed.

Lemma trimStart_first (s : string) (c : ascii) :
  first_unit (Js.trimStart s) = Some c -> Js.isSpace c = false.
Proof.
  induction s as [|a s IH]; simpl.
  - discriminate.
  - destruct (Js.isSpace a) eqn:E; [exact IH|].
    simpl. intros H. injection H as <-. exact E.
Qed.

Lemma trimEnd_first (s : string) (c : ascii) :
  first_unit (Js.trimEnd s) = Some c -> first_unit s = Some c.
Proof.
  destruct s as [|a s]; simpl.
  - discriminate.
  - destruct (Js.trimEnd s); [destruct (Js.isSpace a)|]; simpl;
      intros H; try discriminate H; exact H.
Qed.

Lemma trimEnd_last (s : string) (c : ascii) :
  last_unit (Js.trimEnd s) = Some c -> Js.isSpace c = false.
Proof.
  induction s as [|a s IH]; simpl.
  - discriminate.
  - destruct (Js.trimEnd s) as [|b r].
    + destruct (Js.isSpace a) eqn:E; simpl; intros H; [discriminate H|].
      injection H as <-. exact E.
    + intros H. apply IH. exact H.
Qed.

Lemma trim_trimmed (s : string) : trimmed (Js.trim s).
Proof.
  unfold trimmed, Js.trim. split; intros c H.
  - apply (trimStart_first s), trimEnd_first, H.
  - apply (trimEnd_last _ _ H).
Qed.

Lemma trim_all_space (s : string) : all_space s = true -> Js.trim s = "".
Proof.
  unfold Js.trim. induction s as [|a s IH]; simpl; intros H.
  - reflexivity.
  - apply andb_true_iff in H. destruct H as [Ha Hs].
    rewrite Ha. apply IH, Hs.
Qed.

Lemma onresult_final_eq (results : list (string * bool)) (w : World) :
  existsb snd results = true ->
  onresult results w = handleUserSpeech (Js.trim (spaced_finals results)) w.
Proof.
  intros H. unfold onresult. rewrite collect_spec. cbn [append].
  pose proof (spaced_finals_some results H) as N.
  destruct (spaced_finals results); [contradiction | reflexivity].
Qed.

(** While no result of an event is final, [onresult] only sets the interim
    transcript, to the transcripts of the event put end to end: no message is
    appended and no reply is scheduled. *)
Theorem onresult_interim_only :
  forall (results : list (string * bool)) (w : World),
    existsb snd results = false ->
    onresult results w = setTranscript (joined_interims results) w
    /\ messages (session (onresult results w)) = messages (session w)
    /\ timers (onresult results w) = timers w
    /\ callStatus (session (onresult results w)) = callStatus (session w).
Proof.
  intros results w H.
  assert (onresult results w = setTranscript (joined_interims results) w) as E.
  { unfold onresult. rewrite collect_spec. cbn [append].
    rewrite (spaced_finals_none results H). reflexivity. }
  rewrite E. repeat split.
Qed.

Lemma onresult_interim_only_witness :
  transcript (session (onresult [("what ti", false); ("me", false)]
                                (mount true true stopwatch)))
  = "what time".
Proof.
  rewrite (proj1 (onresult_interim_only [("what ti", false); ("me", false)]
                    (mount true true stopwatch) eq_refl)).
  reflexivity.
Defined.

(** As soon as one result of an event is final, [onresult] hands the final
    transcripts, joined by spaces and trimmed, to [handleUserSpeech] and drops
    the interim ones: exactly one user message is appended, with that text,
    which neither starts nor ends with white space; the interim transcript is
    cleared and one reply is scheduled half a second later.  A final result
    that is blank still gives a user message, an empty one. *)
Theorem onresult_final_utterance :
  forall (results : list (string * bool)) (w : World),
    existsb snd results = true ->
    let said := Js.trim (spaced_finals results) in
    onresult results w = handleUserSpeech said w
    /\ trimmed said
    /\ (all_space (spaced_finals results) = true -> said = "")
    /\ messages (session (onresult results w))
       = (messages (session w) ++ [mkMessage user said (newDate w)])%list
    /\ transcript (session (onresult results w)) = ""
    /\ timers (onresult results w)
       = (timers w ++ [mkTimer (nextId w) (now w + 500) (CbReply said)])%list
    /\ callStatus (session (onresult results w)) = callStatus (session w).
Proof.
  intros results w H said.
  assert (onresult results w = handleUserSpeech said w) as E
      by (apply onresult_final_eq, H).
  rewrite E. repeat split.
  - apply (trim_trimmed (spaced_finals results)).
  - apply (trim_trimmed (spaced_finals results)).
  - apply trim_all_space.
Qed.

Lemma onresult_final_utterance_witness :
  map content (messages (session
     (onresult [(" what time", true); ("is i", false); ("is it ", true)]
               (mount true true stopwatch))))
  = ["what time is it"].
Proof.
  rewrite (proj1 (proj2 (proj2 (proj2
     (onresult_final_utterance
        [(" what time", true); ("is i", false); ("is it ", true)]
        (mount true true stopwatch) eq_refl))))).
  reflexivity.
Defined.

(** ** Every utterance is answered *)

Lemma reply_session (t : string) (w : World) :
  answered (clock w) (now w) t (session (reply t w)).
Proof.
  unfold answered, reply, seq, speak, addMessage, newDate. open_world w.
  destruct synthRef0; simpl; (split; [eexists; reflexivity | reflexivity]).
Qed.

Lemma handleUserSpeech_loop (t : string) (w : World) :
  now (handleUserSpeech t w) = now w /\ clock (handleUserSpeech t w) = clock w
  /\ timers (handleUserSpeech t w)
     = (timers w ++ [mkTimer (nextId w) (now w + 500) (CbReply t)])%list.
Proof. repeat split. Qed.

(** The reply scheduled by [handleUserSpeech] fires after half a second, and
    only ticks fire after it in that millisecond. *)
Lemma reply_settles (t : string) (w : World) :
  settled (answered (clock w) (now w + 500) t)
          (advance 500 (handleUserSpeech t w)).
Proof.
  change 500%N with (N.succ 499).
  apply (advance_fires
           (mkTimer (nextId w) (now w + N.succ 499) (CbReply t)) (clock w)).
  - intros w0 Hn Hc. cbn [due] in Hn.
    change (fire (mkTimer (nextId w) (now w + N.succ 499) (CbReply t)) w0)
      with (reply t w0).
    rewrite <- Hn, <- Hc. apply reply_session.
  - intros x w0 Hx H. rewrite (fire_tick_session x w0 Hx). exact H.
  - reflexivity.
  - reflexivity.
  - exists (timers w), []. split; [reflexivity | constructor].
Qed.

(** Whatever else is pending, and whatever the call status, half a second
    after an utterance is handled the reply to it, computed from the clock at
    that moment, is the last message of the conversation and the one utterance
    in the speech queue; the user's message was appended at once. *)
Theorem handleUserSpeech_answered :
  forall (t : string) (w : World),
    messages (session (handleUserSpeech t w))
    = (messages (session w) ++ [mkMessage user t (newDate w)])%list
    /\ answered (clock w) (now w + 500) t
                (session (advance 500 (handleUserSpeech t w))).
Proof.
  intros t w. split.
  - reflexivity.
  - destruct (reply_settles t w) as [H _]. exact H.
Qed.

(** ** Invariants of the reachable worlds *)

Section WorldInvariant.

Variable I : World -> Prop.

Hypothesis I_now : forall w, I w -> I (set_now (now w + 1) w).
Hypothesis I_fire :
  forall w t rest,
    I w -> pop_due (now w) (timers w) = Some (t, rest) ->
    I (fire t (set_timers rest w)).

Lemma run_due_world_invariant (fuel : nat) (w : World) :
  I w -> I (run_due fuel w).
Proof.
  revert w. induction fuel as [|fuel IH]; intros w H; simpl.
  - exact H.
  - destruct (pop_due (now w) (timers w)) as [[t rest]|] eqn:E.
    + apply IH, (I_fire w t rest H E).
    + exact H.
Qed.

Lemma advance_world_invariant (ms : N) (w : World) :
  I w -> I (advance ms w).
Proof.
  revert w. induction ms as [|ms IH] using N.peano_ind; intros w H.
  - exact H.
  - rewrite advance_succ. apply IH. unfold tick_ms.
    apply run_due_world_invariant, I_now, H.
Qed.

Hypothesis I_start : forall w, I w -> I (startCall w).
Hypothesis I_end : forall w, I w -> I (endCall w).
Hypothesis I_result :
  forall w results,
    I w -> recognitionRef (session w) = Some true -> I (onresult results w).
Hypothesis I_spoken :
  forall w, I w ->
    I (set_synthRef (option_map (@tl Utterance) (synthRef (session w))) w).

Lemma step_world_invariant (e : Event) (w w' : World) :
  step w e = Some w' -> I w -> I w'.
Proof.
  unfold step. destruct (enabled w e) eqn:En; [|discriminate].
  intros E H. injection E as <-.
  destruct e as [| |results| | |ms]; simpl.
  - apply I_start, H.
  - apply I_end, H.
  - apply I_result; [exact H|]. simpl in En.
    destruct (recognitionRef (session w)) as [[]|]; try discriminate En.
    reflexivity.
  - exact H.
  - apply I_spoken, H.
  - apply advance_world_invariant, H.
Qed.

Lemma exec_world_invariant (es : list Event) (w w' : World) :
  exec w es = Some w' -> I w -> I w'.
Proof.
  revert w. induction es as [|e es IH]; simpl; intros w E H.
  - injection E as <-. exact H.
  - destruct (step w e) as [w1|] eqn:S1; [|discriminate E].
    apply (IH w1 E), (step_world_invariant e w w1 S1 H).
Qed.

End WorldInvariant.

Lemma endCall_timers (w : World) :
  exists l,
    timers (endCall w) = (l ++ [mkTimer (nextId w) (now w + 2000) CbIdle])%list
    /\ incl l (timers w).
Proof.
  unfold endCall, seq. open_world w.
  destruct recognitionRef0; simpl; destruct synthRef0; simpl;
    destruct timerRef0; simpl; eexists; (split; [reflexivity|]);
    try apply incl_refl; apply incl_filter.
Qed.

Lemma onresult_cases (results : list (string * bool)) (w : World) :
  onresult results w = setTranscript (joined_interims results) w
  \/ onresult results w = handleUserSpeech (Js.trim (spaced_finals results)) w.
Proof.
  destruct (existsb snd results) eqn:E.
  - right. unfold onresult. rewrite collect_spec. cbn [append].
    pose proof (spaced_finals_some results E) as N.
    destruct (spaced_finals results); [contradiction | reflexivity].
  - left. unfold onresult. rewrite collect_spec. cbn [append].
    rewrite (spaced_finals_none results E). reflexivity.
Qed.

(** *** [isRecording] while the recogniser listens *)

Lemma fire_recorded (t : Timer) (w : World) :
  recorded_while_listening (session w) ->
  recorded_while_listening (session (fire t w)).
Proof.
  unfold recorded_while_listening, fire. intros H. open_world w.
  destruct (cb t) as [| |u|]; simpl.
  - unfold connected, seq, speak. simpl.
    destruct synthRef0; simpl; destruct recognitionRef0 as [[]|]; simpl;
      auto; discriminate.
  - exact H.
  - unfold reply, seq, speak. simpl. destruct synthRef0; simpl; exact H.
  - exact H.
Qed.

Lemma step_recorded (e : Event) (w w' : World) :
  step w e = Some w' ->
  recorded_while_listening (session w) ->
  recorded_while_listening (session w').
Proof.
  apply (step_world_invariant
           (fun w => recorded_while_listening (session w))).
  - intros w0 H. exact H.
  - intros w0 t rest H _. apply fire_recorded. exact H.
  - intros w0 H. exact H.
  - intros w0 H. unfold recorded_while_listening, endCall, seq in *.
    open_world w0.
    destruct recognitionRef0; simpl; destruct synthRef0; simpl;
      destruct timerRef0; simpl; auto; discriminate.
  - intros w0 results H _.
    destruct (onresult_cases results w0) as [-> | ->]; exact H.
  - intros w0 H. exact H.
Qed.

Lemma exec_platform_reachable (es : list Event) (w w' : World) :
  platform_reachable w -> exec w es = Some w' -> platform_reachable w'.
Proof.
  revert w. induction es as [|e es IH]; simpl; intros w R E.
  - injection E as <-. exact R.
  - destruct (step w e) as [w1|] eqn:S1; [|discriminate E].
    apply (IH w1); [apply (pr_step w e w1 R S1) | exact E].
Qed.

(** Also on a platform where recognition may end by itself at any time,
    [isRecording] is true in every state where the recogniser is started:
    it is set with [start()] and reset only by a hang-up, which stops the
    recogniser.  The converse fails: as the page has no [onend] handler,
    [isRecording] stays true after the recogniser has ended by itself. *)
Theorem isRecording_while_listening :
  (forall w : World,
      platform_reachable w -> recorded_while_listening (session w))
  /\ (forall w : World, reachable w -> platform_reachable w)
  /\ (exists w : World,
         platform_reachable w
         /\ callStatus (session w) = active
         /\ recognitionRef (session w) = Some false
         /\ isRecording (session w) = true).
Proof.
  split; [|split].
  - intros w R. induction R as [r s clk | w e w' R IH S1 | w R IH Hl].
    + unfold recorded_while_listening. destruct r, s; discriminate.
    + apply (step_recorded e w w' S1 IH).
    + unfold recorded_while_listening. simpl. discriminate.
  - intros w (r & s & clk & es & E).
    apply (exec_platform_reachable es (mount r s clk)); [constructor | exact E].
  - exists (recogniser_ends
              (advance 1500 (startCall (mount true true stopwatch)))).
    split; [|vm_compute; repeat split].
    apply pr_ends; [|vm_compute; reflexivity].
    apply (exec_platform_reachable [ClickStart; Wait 1500]
             (mount true true stopwatch)); [constructor | reflexivity].
Qed.

Lemma isRecording_while_listening_witness :
  recorded_while_listening
    (session (advance 1500 (startCall (mount true true stopwatch)))).
Proof.
  apply (proj1 isRecording_while_listening).
  apply (proj1 (proj2 isRecording_while_listening)).
  exists true, true, stopwatch, [ClickStart; Wait 1500]. reflexivity.
Defined.

(** *** The duration shown *)

Lemma fire_duration (t : Timer) (w : World) :
  (0 <= callDuration (session w))%Z -> (0 <= callDuration (session (fire t w)))%Z.
Proof.
  unfold fire. intros H. open_world w. destruct (cb t) as [| |u|]; simpl.
  - unfold connected, seq, speak. simpl.
    destruct synthRef0; simpl; destruct recognitionRef0 as [[]|]; simpl; lia.
  - exact H.
  - unfold reply, seq, speak. simpl. destruct synthRef0; simpl; exact H.
  - lia.
Qed.

Lemma endCall_fields (w : World) :
  callDuration (session (endCall w)) = callDuration (session w)
  /\ messages (session (endCall w)) = messages (session w)
  /\ transcript (session (endCall w)) = transcript (session w)
  /\ recognitionRef (session (endCall w)) <> Some true.
Proof.
  unfold endCall, seq. open_world w.
  destruct recognitionRef0; simpl; destruct synthRef0; simpl;
    destruct timerRef0; simpl; repeat split; discriminate.
Qed.

Lemma onresult_fields (results : list (string * bool)) (w : World) :
  callDuration (session (onresult results w)) = callDuration (session w)
  /\ callStatus (session (onresult results w)) = callStatus (session w)
  /\ recognitionRef (session (onresult results w)) = recognitionRef (session w)
  /\ isRecording (session (onresult results w)) = isRecording (session w)
  /\ timerRef (session (onresult results w)) = timerRef (session w).
Proof.
  destruct (onresult_cases results w) as [-> | ->]; repeat split.
Qed.

(** In every reachable state the seconds counter is not negative, so that the
    status text of an active call is "Active - " followed by the minutes, a
    colon and the seconds, both fields made of digits and the seconds two
    digits wide and below 60. *)
Theorem active_status_text :
  forall w : World,
    reachable w ->
    (0 <= callDuration (session w))%Z
    /\ (callStatus (session w) = active ->
        exists mm ss : string,
          statusText (render (session w)) = "Active - " ++ mm ++ ":" ++ ss
          /\ all_digits mm = true /\ all_digits ss = true
          /\ String.length ss = 2
          /\ Js.parseDecimal mm = Some (callDuration (session w) / 60)%Z
          /\ Js.parseDecimal ss = Some (callDuration (session w) mod 60)%Z).
Proof.
  intros w (r & s & clk & es & E).
  assert (0 <= callDuration (session w))%Z as Hd.
  { apply (exec_world_invariant (fun w => (0 <= callDuration (session w))%Z))
      with (es := es) (w := mount r s clk); try exact E.
    - intros w0 H. exact H.
    - intros w0 t rest H _. apply fire_duration. exact H.
    - intros w0 H. exact H.
    - intros w0 H. rewrite (proj1 (endCall_fields w0)). exact H.
    - intros w0 results H _. rewrite (proj1 (onresult_fields results w0)). exact H.
    - intros w0 H. exact H.
    - destruct r, s; simpl; lia. }
  split; [exact Hd|]. intros Ha.
  assert (0 <= callDuration (session w) / 60)%Z as Hm by (apply Z.div_pos; lia).
  assert (0 <= callDuration (session w) mod 60 < 60)%Z as Hr
      by (apply Z.mod_pos_bound; lia).
  exists (Js.padStart (Js.toString (callDuration (session w) / 60)) 2 "0"),
         (Js.padStart (Js.toString (callDuration (session w) mod 60)) 2 "0").
  split; [|split; [|split; [|split; [|split]]]].
  - unfold render. cbn [statusText]. rewrite Ha. unfold formatDuration.
    rewrite Z.rem_mod_nonneg by lia. reflexivity.
  - apply padStart_digits, Hm.
  - apply padStart_digits; lia.
  - apply padStart_width_two; lia.
  - apply padStart_parse, Hm.
  - apply padStart_parse; lia.
Qed.

Lemma active_status_text_witness :
  (0 <= callDuration
          (session (advance 64000 (advance 1500
                      (startCall (mount true true stopwatch))))))%Z.
Proof.
  apply active_status_text.
  exists true, true, stopwatch, [ClickStart; Wait 1500; Wait 64000].
  vm_compute. reflexivity.
Defined.

(** *** How the conversation opens *)

Lemma greeting_kept (s : Session) (more : list Message) (s' : Session) :
  messages s' = (messages s ++ more)%list ->
  (exists d rest, messages s = greeting_message d :: rest) ->
  exists d rest, messages s' = greeting_message d :: rest.
Proof.
  intros E (d & rest & H). exists d, (rest ++ more)%list.
  rewrite E, H. reflexivity.
Qed.

Lemma reply_messages (u : string) (w : World) :
  messages (session (reply u w))
  = (messages (session w) ++ [reply_message (clock w) (now w) u])%list.
Proof.
  unfold reply, seq, speak. open_world w. destruct synthRef0; reflexivity.
Qed.

Lemma reply_fields (u : string) (w : World) :
  recognitionRef (session (reply u w)) = recognitionRef (session w)
  /\ isRecording (session (reply u w)) = isRecording (session w)
  /\ timers (reply u w) = timers w.
Proof.
  unfold reply, seq, speak. open_world w. destruct synthRef0; repeat split.
Qed.

Lemma fire_opening (w : World) (t : Timer) (rest : list Timer) :
  silent w \/ (exists d more, messages (session w) = greeting_message d :: more) ->
  pop_due (now w) (timers w) = Some (t, rest) ->
  silent (fire t (set_timers rest w))
  \/ (exists d more,
        messages (session (fire t (set_timers rest w))) = greeting_message d :: more).
Proof.
  intros H E. unfold fire.
  destruct (cb t) as [| |u|] eqn:C.
  - right. exists (newDate (set_timers rest w)), [].
    apply (connected_session (set_timers rest w)).
  - destruct H as [(Hm & Hr & Ht) | H]; [left | right; exact H].
    repeat split; try assumption.
    apply (pop_due_keeps _ _ _ _ _ E Ht).
  - destruct H as [(_ & _ & Ht) | H].
    + destruct (pop_due_keeps _ _ _ _ _ E Ht) as [Hx _].
      unfold is_reply in Hx. rewrite C in Hx. discriminate Hx.
    + right. apply (greeting_kept (session (set_timers rest w))
                      [reply_message (clock w) (now w) u]).
      * apply (reply_messages u (set_timers rest w)).
      * exact H.
  - destruct H as [(Hm & Hr & Ht) | H]; [left | right; exact H].
    repeat split; try assumption. simpl.
    apply Forall_app. split.
    + apply (pop_due_keeps _ _ _ _ _ E Ht).
    + constructor; [reflexivity | constructor].
Qed.

Lemma opening_invariant (w : World) :
  reachable w ->
  silent w \/ (exists d more, messages (session w) = greeting_message d :: more).
Proof.
  intros (r & s & clk & es & E).
  apply (exec_world_invariant
           (fun w => silent w
                     \/ (exists d more,
                           messages (session w) = greeting_message d :: more)))
    with (es := es) (w := mount r s clk); try exact E.
  - intros w0 H. exact H.
  - intros w0 t rest H P. apply fire_opening; assumption.
  - intros w0 [(Hm & Hr & Ht) | H]; [left | right; exact H].
    repeat split; try assumption. simpl.
    apply Forall_app. split; [exact Ht | constructor; [reflexivity | constructor]].
  - intros w0 [(Hm & Hr & Ht) | H]; [left | right].
    + destruct (endCall_fields w0) as (_ & Em & _ & Er).
      destruct (endCall_timers w0) as (l & El & Hl).
      repeat split.
      * rewrite Em. exact Hm.
      * exact Er.
      * rewrite El. apply Forall_app. split.
        -- rewrite Forall_forall in *. intros x Hx. apply Ht, Hl, Hx.
        -- constructor; [reflexivity | constructor].
    + rewrite (proj1 (proj2 (endCall_fields w0))). exact H.
  - intros w0 results [(_ & Hr & _) | H] En; [contradiction|]. right.
    destruct (onresult_cases results w0) as [-> | ->]; [exact H|].
    apply (greeting_kept (session w0)
             [mkMessage user (Js.trim (spaced_finals results)) (newDate w0)]);
      [reflexivity | exact H].
  - intros w0 H. exact H.
  - left. repeat split; [|constructor]. destruct r, s; discriminate.
Qed.

(** In every reachable state the conversation is empty or opens with the
    agent's greeting: nothing is ever appended before a call has greeted, and
    only the greeting of a new call replaces what was said. *)
Theorem conversation_opens_with_greeting :
  forall w : World, reachable w -> opens_with_greeting (session w).
Proof.
  intros w H. destruct (opening_invariant w H) as [(Hm & _) | G].
  - left. exact Hm.
  - right. exact G.
Qed.

Lemma conversation_opens_with_greeting_witness :
  opens_with_greeting
    (session (advance 500 (onresult [("hello", true)]
                (advance 1500 (startCall (mount true true stopwatch)))))).
Proof.
  apply conversation_opens_with_greeting.
  exists true, true, stopwatch,
    [ClickStart; Wait 1500; SpeechResult [("hello", true)]; Wait 500].
  vm_compute. reflexivity.
Defined.

(** *** A platform without speech recognition *)






(** *** The page comes to rest *)

Lemma timeouts_within_mono (b b' : N) (q : list Timer) :
  (b <= b')%N -> timeouts_within b q -> timeouts_within b' q.
Proof.
  intros Hb H. unfold timeouts_within in *.
  eapply Forall_impl; [|exact H]. intros t [Ht | Ht]; [left; exact Ht | right; lia].
Qed.

Lemma fire_timeouts_within (b : N) (w : World) (t : Timer) (rest : list Timer) :
  timeouts_within b (timers w) ->
  pop_due (now w) (timers w) = Some (t, rest) ->
  timeouts_within b (timers (fire t (set_timers rest w))).
Proof.
  intros H E. unfold timeouts_within in *.
  destruct (pop_due_keeps _ _ _ _ _ E H) as [_ Hrest].
  destruct (fire_loop t (set_timers rest w)) as (_ & _ & extra & -> & Hx).
  apply Forall_app. split; [exact Hrest|].
  eapply Forall_impl; [|exact Hx]. intros x [Hx' _]. left. exact Hx'.
Qed.

Lemma advance_last (ms : N) (w : World) :
  advance (N.succ ms) w = tick_ms (advance ms w).
Proof. unfold advance. apply N.iter_succ. Qed.

Lemma reachable_timeouts_within (w : World) :
  reachable w -> timeouts_within (now w + 2000) (timers w).
Proof.
  intros (r & s & clk & es & E).
  apply (exec_world_invariant
           (fun w => timeouts_within (now w + 2000) (timers w)))
    with (es := es) (w := mount r s clk); try exact E.
  - intros w0 H. simpl. apply (timeouts_within_mono (now w0 + 2000)); [lia | exact H].
  - intros w0 t rest H P.
    destruct (fire_loop t (set_timers rest w0)) as (-> & _).
    apply fire_timeouts_within; assumption.
  - intros w0 H. simpl. apply Forall_app. split; [exact H|].
    constructor; [right; simpl; lia | constructor].
  - intros w0 H.
    destruct (endCall_loop w0) as (-> & _).
    destruct (endCall_timers w0) as (l & -> & Hl).
    apply Forall_app. split.
    + unfold timeouts_within in H. rewrite Forall_forall in *.
      intros x Hx. apply H, Hl, Hx.
    + constructor; [right; simpl; lia | constructor].
  - intros w0 results H _.
    destruct (onresult_cases results w0) as [-> | ->]; [exact H|].
    simpl. apply Forall_app. split; [exact H|].
    constructor; [right; simpl; lia | constructor].
  - intros w0 H. exact H.
  - constructor.
Qed.

(** Every timeout the page arms is due within two seconds.  So two seconds
    after the last click or recognition event, in any reachable state, nothing
    is pending but ticks of the one-second interval: every scheduled
    connection, reply and reset has run. *)
Theorem page_comes_to_rest :
  forall w : World,
    reachable w ->
    timeouts_within (now w + 2000) (timers w)
    /\ Forall (fun t => is_tick t = true) (timers (advance 2000 w)).
Proof.
  intros w R. pose proof (reachable_timeouts_within w R) as H.
  split; [exact H|].
  assert (timeouts_within (now w + 2000) (timers (advance 2000 w))) as J.
  { apply (advance_world_invariant
             (fun w0 => timeouts_within (now w + 2000) (timers w0))).
    - intros w0 H0. exact H0.
    - intros w0 t rest H0 P. apply fire_timeouts_within; assumption.
    - exact H. }
  assert (quiet (advance 2000 w)) as Q.
  { change 2000%N with (N.succ 1999). rewrite advance_last. apply tick_ms_quiet. }
  unfold quiet in Q. rewrite (proj1 (advance_loop 2000 w)) in Q.
  unfold timeouts_within in J. rewrite Forall_forall in *.
  intros t Ht. destruct (J t Ht) as [T | D]; [exact T|].
  specialize (Q t Ht). lia.
Qed.

Lemma page_comes_to_rest_witness :
  Forall (fun t => is_tick t = true)
    (timers (advance 2000
       (onresult [("hello", true)]
          (advance 1500 (startCall (mount true true stopwatch)))))).
Proof.
  apply page_comes_to_rest.
  exists true, true, stopwatch,
    [ClickStart; Wait 1500; SpeechResult [("hello", true)]].
  vm_compute. reflexivity.
Defined.

(** ** A call that is left to connect *)

Lemma set_now_now (w : World) : set_now (now w) w = w.
Proof. destruct w; reflexivity. Qed.

Lemma pop_due_quiet (n : N) (q : list Timer) :
  Forall (fun t => (n < due t)%N) q -> pop_due n q = None.
Proof.
  induction 1 as [|t q Ht _ IH]; simpl.
  - reflexivity.
  - apply N.leb_gt in Ht. rewrite Ht, IH. reflexivity.
Qed.

Lemma run_due_quiet_world (fuel : nat) (w : World) :
  quiet w -> run_due fuel w = w.
Proof.
  intros Q. destruct fuel as [|fuel]; simpl; [reflexivity|].
  rewrite (pop_due_quiet _ _ Q). reflexivity.
Qed.

(** While no timer comes due, time passes and nothing else happens. *)
Lemma advance_quiet (ms : N) (w : World) :
  Forall (fun t => (now w + ms < due t)%N) (timers w) ->
  advance ms w = set_now (now w + ms) w.
Proof.
  revert w. induction ms as [|ms IH] using N.peano_ind; intros w H.
  - rewrite N.add_0_r, set_now_now. reflexivity.
  - rewrite advance_succ.
    assert (tick_ms w = set_now (now w + 1) w) as E.
    { unfold tick_ms. apply run_due_quiet_world. unfold quiet. simpl.
      eapply Forall_impl; [|exact H]. simpl. intros t Ht. lia. }
    rewrite E, IH.
    + unfold set_now. simpl. f_equal. lia.
    + simpl. eapply Forall_impl; [|exact H]. simpl. intros t Ht. lia.
Qed.

Lemma advance_add (a b : N) (w : World) :
  advance (a + b) w = advance b (advance a w).
Proof. unfold advance. rewrite N.add_comm. apply N.iter_add. Qed.

Lemma tick_ms_single (t : Timer) (w : World) :
  timers w = [t] -> due t = (now w + 1)%N ->
  tick_ms w = fire t (set_timers [] (set_now (due t) w)).
Proof.
  intros Ht Hd. unfold tick_ms. destruct w as [s n q i c]. simpl in *.
  subst q. simpl. rewrite Hd, N.leb_refl. reflexivity.
Qed.

(** A timer that is alone in the queue fires when it is due, and nothing
    happens before. *)
Lemma advance_single (t : Timer) (ms : N) (w : World) :
  timers w = [t] -> due t = (now w + N.succ ms)%N ->
  advance (N.succ ms) w = fire t (set_timers [] (set_now (due t) w)).
Proof.
  intros Ht Hd. rewrite advance_last, advance_quiet.
  - rewrite (tick_ms_single t (set_now (now w + ms) w)).
    + reflexivity.
    + exact Ht.
    + simpl. lia.
  - rewrite Ht. constructor; [lia | constructor].
Qed.

(** The world in which the one-second interval [id], alone in the queue, has
    ticked [k] times since [w]. *)
Lemma seconds_pass (id : N) (k : N) (w : World) :
  timers w = [mkTimer id (now w + 1000) CbTick] ->
  advance (1000 * k) w
  = setCallDuration (fun c => (c + Z.of_N k)%Z)
      (set_timers [mkTimer id (now w + 1000 * k + 1000) CbTick]
         (set_now (now w + 1000 * k) w)).
Proof.
  revert w. induction k as [|k IH] using N.peano_ind; intros w Ht.
  - rewrite N.mul_0_r. destruct w as [s n q i c]. destruct s. simpl in *.
    subst q. unfold setCallDuration, on_session, set_timers, set_now.
    cbn -[N.mul N.add Z.add Z.of_N]. rewrite !N.add_0_r.
    change (Z.of_N 0) with 0%Z. rewrite Z.add_0_r. reflexivity.
  - replace (1000 * N.succ k)%N with (N.succ 999 + 1000 * k)%N by lia.
    rewrite advance_add.
    rewrite (advance_single (mkTimer id (now w + 1000) CbTick) 999 w Ht)
      by (simpl; lia).
    rewrite IH.
    + destruct w as [s n q i c]. destruct s.
      unfold fire, seq, setCallDuration, on_session, set_timers, set_now.
      cbn -[N.mul N.add Z.add Z.of_N N.succ].
      f_equal; [f_equal; lia | lia | do 2 f_equal; lia].
    + reflexivity.
Qed.

Lemma connected_loop (w : World) :
  now (connected w) = now w /\ clock (connected w) = clock w
  /\ nextId (connected w) = (nextId w + 1)%N
  /\ timers (connected w)
     = (timers w ++ [mkTimer (nextId w) (now w + 1000) CbTick])%list
  /\ timerRef (session (connected w)) = Some (nextId w)
  /\ callDuration (session (connected w)) = 0%Z
  /\ transcript (session (connected w)) = transcript (session w).
Proof.
  unfold connected, seq, speak. open_world w.
  destruct synthRef0; simpl; destruct recognitionRef0 as [[]|]; repeat split.
Qed.

(** Ending a call whose interval is the only pending timer leaves the reset
    as the only pending timer. *)
Lemma endCall_single (id d : N) (w : World) :
  timers w = [mkTimer id d CbTick] -> timerRef (session w) = Some id ->
  timers (endCall w) = [mkTimer (nextId w) (now w + 2000) CbIdle]
  /\ callStatus (session (endCall w)) = ended
  /\ resources_stopped (session (endCall w)).
Proof.
  unfold endCall, seq, resources_stopped. open_world w. intros -> ->.
  destruct recognitionRef0; simpl; destruct synthRef0; simpl;
    rewrite N.eqb_refl; simpl; repeat split; auto; discriminate.
Qed.

Lemma startCall_fresh (w : World) :
  fresh w ->
  advance 1500 (startCall w)
  = connected (set_timers [] (set_now (now w + 1500) (startCall w))).
Proof.
  intros F. change 1500%N with (N.succ 1499).
  rewrite (advance_single (mkTimer (nextId w) (now w + N.succ 1499) CbConnect)).
  - reflexivity.
  - simpl. rewrite F. reflexivity.
  - reflexivity.
Qed.

(** The world [d] milliseconds into a call started in a fresh world. *)
Lemma in_call (w : World) (d : N) :
  fresh w ->
  exists a,
    advance 1500 (startCall w) = a
    /\ timers a = [mkTimer (nextId w + 1) (now w + 1500 + 1000) CbTick]
    /\ advance d a
       = set_now (now w + 1500 + d)
           (setCallDuration (fun c => (c + Z.of_N (d / 1000))%Z)
              (set_timers
                 [mkTimer (nextId w + 1)
                          (now w + 1500 + 1000 * (d / 1000) + 1000) CbTick]
                 a))
    /\ callStatus (session a) = active
    /\ messages (session a) = [greeting_message (clock w (now w + 1500)%N)]
    /\ callDuration (session a) = 0%Z
    /\ timerRef (session a) = Some (nextId w + 1)%N
    /\ transcript (session a) = transcript (session w)
    /\ nextId a = (nextId w + 2)%N /\ clock a = clock w.
Proof.
  intros F. eexists. split; [reflexivity|].
  rewrite (startCall_fresh w F).
  set (w0 := set_timers [] (set_now (now w + 1500) (startCall w))).
  destruct (connected_loop w0) as (Hn & Hc & Hi & Ht & Hr & Hd & Htr).
  destruct (connected_session w0) as [Hs Hm].
  change (now w0) with (now w + 1500)%N in *.
  change (timers w0) with (@nil Timer) in Ht.
  change (nextId w0) with (nextId w + 1)%N in *.
  change (clock w0) with (clock w) in *.
  change (transcript (session w0)) with (transcript (session w)) in Htr.
  change (newDate w0) with (clock w (now w + 1500)%N) in Hm.
  simpl in Ht.
  generalize dependent (connected w0). clear w0. intros a Hn Hc Hi Ht Hr Hd Htr Hs Hm.
  repeat split; try assumption.
  - pose proof (N.div_mod' d 1000) as Ed.
    pose proof (N.mod_lt d 1000 ltac:(lia)) as Lr.
    set (q := (d / 1000)%N) in *. set (r := (d mod 1000)%N) in *.
    rewrite Ed at 1. rewrite advance_add, (seconds_pass (nextId w + 1) q a).
    + rewrite advance_quiet.
      * unfold set_now, setCallDuration, on_session, set_timers.
        cbn -[N.mul N.add Z.add Z.of_N]. rewrite Hn. f_equal. lia.
      * cbn -[N.mul N.add]. constructor; [|constructor].
        cbn -[N.mul N.add]. lia.
    + rewrite Ht, Hn. reflexivity.
  - rewrite Hi. lia.
Qed.

(** In a call started with nothing pending and left alone, the seconds
    counter is the number of whole seconds since the call became active, the
    status stays active, and the conversation stays the greeting. *)
Theorem clean_call_counts_seconds :
  forall (w : World) (d : N),
    fresh w ->
    let a := advance d (advance 1500 (startCall w)) in
    callDuration (session a) = Z.of_N (d / 1000)
    /\ callStatus (session a) = active
    /\ messages (session a) = [greeting_message (clock w (now w + 1500)%N)]
    /\ statusText (render (session a))
       = "Active - " ++ formatDuration (Z.of_N (d / 1000)).
Proof.
  intros w d F a.
  destruct (in_call w d F) as (a0 & E0 & _ & Ed & Hs & Hm & Hd & _).
  assert (callDuration (session a) = Z.of_N (d / 1000)
          /\ callStatus (session a) = active) as [Hk Ha].
  { subst a. rewrite E0, Ed. cbn -[N.mul N.add Z.add Z.of_N N.div].
    rewrite Hd. split; [reflexivity | exact Hs]. }
  repeat split; try assumption.
  - subst a. rewrite E0, Ed. exact Hm.
  - unfold render. cbn [statusText]. rewrite Ha, Hk. reflexivity.
Qed.

Lemma clean_call_counts_seconds_witness :
  statusText (render (session
     (advance 125500 (advance 1500 (startCall (mount true true stopwatch))))))
  = "Active - 02:05".
Proof.
  rewrite (proj2 (proj2 (proj2
            (clean_call_counts_seconds (mount true true stopwatch) 125500
                                       eq_refl)))).
  reflexivity.
Defined.

(** A call started from idle with nothing pending, left alone for [d]
    milliseconds once active and then ended, goes through idle, connecting,
    active, ended and idle again; two seconds after the hang-up nothing is
    pending any more, listening, speech and the interval are stopped, the
    transcript is empty, and the counter keeps the whole seconds the call
    was active.  The page is then ready for the next call in the same way. *)
Theorem clean_call_returns_to_rest :
  forall (w : World) (d : N),
    fresh w -> callStatus (session w) = idle ->
    exists w',
      exec w [ClickStart; Wait 1500; Wait d; ClickEnd; Wait 2000] = Some w'
      /\ status_trace w [ClickStart; Wait 1500; Wait d; ClickEnd; Wait 2000]
         = [idle; connecting; active; active; ended; idle]
      /\ fresh w'
      /\ callStatus (session w') = idle
      /\ resources_stopped (session w')
      /\ transcript (session w') = ""
      /\ callDuration (session w') = Z.of_N (d / 1000)
      /\ messages (session w') = [greeting_message (clock w (now w + 1500)%N)]
      /\ now w' = (now w + 1500 + d + 2000)%N.
Proof.
  intros w d F Hidle.
  destruct (in_call w d F)
    as (a & E0 & Ht & Ed & Hs & Hm & Hd & Hr & _ & _ & _).
  remember (advance d a) as b eqn:Eb.
  assert (timers b = [mkTimer (nextId w + 1)
                        (now w + 1500 + 1000 * (d / 1000) + 1000) CbTick]
          /\ timerRef (session b) = Some (nextId w + 1)%N
          /\ callStatus (session b) = active
          /\ callDuration (session b) = Z.of_N (d / 1000)
          /\ messages (session b) = [greeting_message (clock w (now w + 1500)%N)]
          /\ now b = (now w + 1500 + d)%N) as (Bt & Br & Bs & Bd & Bm & Bn).
  { rewrite Ed. cbn -[N.mul N.add Z.add Z.of_N N.div].
    rewrite Hd. repeat split; assumption. }
  destruct (endCall_single _ _ b Bt Br) as (Et & Es & Estop).
  destruct (endCall_fields b) as (Ecd & Em & _ & _).
  destruct (endCall_loop b) as (En & _ & _).
  remember (endCall b) as e eqn:Ee.
  assert (advance 2000 e
          = backToIdle (set_timers [] (set_now (now b + 2000) e))) as Ef.
  { change 2000%N with (N.succ 1999).
    rewrite (advance_single (mkTimer (nextId b) (now b + N.succ 1999) CbIdle)
               1999 e Et) by (simpl; rewrite En; reflexivity).
    reflexivity. }
  exists (advance 2000 e). split; [|split].
  - cbn [exec]. unfold step. cbn [enabled handle]. rewrite Hidle.
    cbn [CallStatus_eqb]. rewrite E0, <- Eb, Bs. cbn [CallStatus_eqb orb].
    rewrite <- Ee. reflexivity.
  - cbn [status_trace handle]. rewrite E0, <- Eb, <- Ee, Hidle, Hs, Bs, Es, Ef.
    reflexivity.
  - rewrite Ef. repeat split.
    + exact (proj1 Estop).
    + exact (proj1 (proj2 Estop)).
    + exact (proj2 (proj2 Estop)).
    + cbn. rewrite Ecd. exact Bd.
    + cbn. rewrite Em. exact Bm.
    + cbn. rewrite Bn. reflexivity.
Qed.

Lemma clean_call_returns_to_rest_witness :
  exists w',
    exec (mount true true stopwatch)
         [ClickStart; Wait 1500; Wait 61000; ClickEnd; Wait 2000] = Some w'
    /\ fresh w' /\ callDuration (session w') = 61%Z.
Proof.
  destruct (clean_call_returns_to_rest (mount true true stopwatch) 61000
              eq_refl eq_refl) as (w' & E & _ & F & _ & _ & _ & D & _).
  exists w'. repeat split; assumption.
Defined.

(** ** The rule table: keywords *)

Lemma startsWith_split (s k : string) :
  Js.startsWith s k = true -> exists b, s = k ++ b.
Proof.
  revert s. induction k as [|x k IH]; intros s H.
  - exists s. reflexivity.
  - destruct s as [|a s]; simpl in H; [discriminate H|].
    apply andb_true_iff in H. destruct H as [Hx Hk].
    apply Ascii.eqb_eq in Hx. subst x.
    destruct (IH s Hk) as [b ->]. exists b. reflexivity.
Qed.

(** [includes] is occurrence as a substring. *)
Lemma includes_split (s k : string) :
  Js.includes s k = true <-> exists a b, s = a ++ k ++ b.
Proof.
  split.
  - induction s as [|x s IH]; intros H.
    + destruct k; [|simpl in H; discriminate H]. exists "", "". reflexivity.
    + change (Js.startsWith (String x s) k || Js.includes s k = true) in H.
      apply orb_true_iff in H. destruct H as [H | H].
      * destruct (startsWith_split _ _ H) as [b E]. exists "", b. exact E.
      * destruct (IH H) as (a & b & ->). exists (String x a), b. reflexivity.
  - intros (a & b & ->). apply includes_middle.
Qed.

Lemma includes_trans (s k k' : string) :
  Js.includes s k = true -> Js.includes k k' = true -> Js.includes s k' = true.
Proof.
  intros H H'. apply includes_split in H. apply includes_split in H'.
  destruct H as (a & b & ->). destruct H' as (a' & b' & ->).
  apply includes_split. exists (a ++ a'), (b' ++ b).
  rewrite !append_assoc. reflexivity.
Qed.

(** The test for "goodbye" never decides: an input that contains "goodbye"
    contains "bye", so the farewell rule fires exactly when the lower-cased
    input contains "bye". *)
Theorem goodbye_keyword_redundant :
  forall input : string,
    (Js.includes input "goodbye" = true -> Js.includes input "bye" = true)
    /\ Js.includes input "bye" || Js.includes input "goodbye"
       = Js.includes input "bye"
    /\ matches input r_farewell = Js.includes input "bye".
Proof.
  intros input.
  assert (Js.includes input "goodbye" = true -> Js.includes input "bye" = true)
    as H by (intros G; apply (includes_trans input "goodbye" "bye" G); reflexivity).
  split; [exact H|].
  assert (Js.includes input "bye" || Js.includes input "goodbye"
          = Js.includes input "bye") as E.
  { destruct (Js.includes input "bye"); [reflexivity|].
    destruct (Js.includes input "goodbye"); [|reflexivity].
    discriminate (H eq_refl). }
  split; [exact E|].
  unfold matches. simpl. rewrite orb_false_r. exact E.
Qed.

Lemma goodbye_keyword_redundant_witness :
  Js.includes "well, goodbye then" "bye" = true.
Proof.
  apply (proj1 (goodbye_keyword_redundant "well, goodbye then")). reflexivity.
Defined.

(** No rule is shadowed by the rules before it: each keyword of the table,
    said alone and in any case, gets the reply of its own rule. *)
Theorem keyword_selects_its_rule :
  forall (now : Date) (r : Rule) (k t : string),
    In k (keywords r) -> case_variant k t ->
    generateResponse now t = canned r now.
Proof.
  intros now r k t Hk V.
  assert (generateResponse now k = canned r now) as E.
  { destruct r; simpl in Hk;
      repeat (destruct Hk as [Hk | Hk]; [subst k; reflexivity|]);
      contradiction. }
  rewrite <- E. unfold generateResponse.
  rewrite (toLowerCase_variant k t V). reflexivity.
Qed.

Lemma keyword_selects_its_rule_witness :
  generateResponse ten_o_clock "Schedule" = reply_appointment.
Proof.
  apply (keyword_selects_its_rule ten_o_clock r_appointment "schedule").
  - right. left. reflexivity.
  - repeat (apply cv_cons;
            [first [left; reflexivity
                   | right; left; split; reflexivity
                   | right; right; split; reflexivity]|]).
    apply cv_nil.
Defined.

(** ** The view *)

(** What is rendered in a reachable state: at most one of the two buttons,
    and none exactly while the call is ended; the buttons are the clicks the
    page accepts; the recording indicator is there exactly while the call is
    active; and the conversation pane shows the placeholder when there is no
    message and otherwise opens with a row of the agent's greeting. *)
Theorem view_of_reachable :
  forall w : World,
    reachable w ->
    let v := render (session w) in
    startButton v && endButton v = false
    /\ (startButton v || endButton v = false <-> callStatus (session w) = ended)
    /\ startButton v = enabled w ClickStart
    /\ endButton v = enabled w ClickEnd
    /\ (recordingIndicator v <> None <-> callStatus (session w) = active)
    /\ List.length (rows v) = List.length (messages (session w))
    /\ ((emptyState v = true /\ rows v = [])
        \/ (emptyState v = false
            /\ exists time rest, rows v = (assistant, time, greeting) :: rest)).
Proof.
  intros w R v. subst v. unfold render.
  cbn [startButton endButton recordingIndicator emptyState rows].
  split; [destruct (callStatus (session w)); reflexivity|].
  split; [destruct (callStatus (session w)); simpl; split; congruence|].
  split; [reflexivity|]. split; [reflexivity|].
  split; [destruct (callStatus (session w)); simpl; split; congruence|].
  split; [apply length_map|].
  destruct (opening_invariant w R) as [(E & _) | (d & rest & E)]; rewrite E.
  - left. split; reflexivity.
  - right. split; [reflexivity|]. eexists. eexists. reflexivity.
Qed.

Lemma view_of_reachable_witness :
  startButton (render (session (startCall (mount true true stopwatch))))
  && endButton (render (session (startCall (mount true true stopwatch))))
  = false.
Proof.
  apply (view_of_reachable (startCall (mount true true stopwatch))).
  exists true, true, stopwatch, [ClickStart]. reflexivity.
Defined.

(** ** The unmount cleanup *)

Lemma filter_twice {A} (f : A -> bool) (l : list A) :
  filter f (filter f l) = filter f l.
Proof.
  induction l as [|x l IH]; simpl; [reflexivity|].
  destruct (f x) eqn:E; simpl; [rewrite E, IH|]; auto.
Qed.

Lemma unmount_timers (w : World) :
  timers (unmount w)
  = match timerRef (session w) with
    | Some id => filter (fun t => negb (tid t =? id)%N) (timers w)
    | None => timers w
    end.
Proof.
  unfold unmount, seq, clearInterval. open_world w.
  destruct recognitionRef0; simpl; destruct timerRef0; reflexivity.
Qed.

(** The cleanup stops the recogniser and takes the interval of [timerRef] off
    the event loop, and nothing else: no timer with the id of [timerRef] is
    left and every other timer is kept; the status, the conversation and the
    speech queue are left as they are and no timer is armed.  In a call that
    was started with nothing pending and left alone, nothing is pending after
    the cleanup.  Run twice it does what it does once, and after a hang-up it
    does nothing at all. *)
Theorem unmount_cleanup :
  forall w : World,
    unmount (unmount w) = unmount w
    /\ unmount (endCall w) = endCall w
    /\ recognitionRef (session (unmount w)) <> Some true
    /\ synthRef (session (unmount w)) = synthRef (session w)
    /\ callStatus (session (unmount w)) = callStatus (session w)
    /\ messages (session (unmount w)) = messages (session w)
    /\ nextId (unmount w) = nextId w
    /\ timers (unmount w)
       = match timerRef (session w) with
         | Some id => filter (fun t => negb (tid t =? id)%N) (timers w)
         | None => timers w
         end
    /\ (forall id, timerRef (session w) = Some id ->
          Forall (fun t => tid t <> id) (timers (unmount w))
          /\ forall t, In t (timers w) -> tid t <> id ->
                       In t (timers (unmount w)))
    /\ (forall d : N,
          fresh w ->
          timerRef (session (advance d (advance 1500 (startCall w)))) <> None
          /\ timers (advance d (advance 1500 (startCall w))) <> []
          /\ timers (unmount (advance d (advance 1500 (startCall w)))) = []).
Proof.
  intros w.
  assert (unmount (unmount w) = unmount w
          /\ unmount (endCall w) = endCall w
          /\ recognitionRef (session (unmount w)) <> Some true
          /\ synthRef (session (unmount w)) = synthRef (session w)
          /\ callStatus (session (unmount w)) = callStatus (session w)
          /\ messages (session (unmount w)) = messages (session w)
          /\ nextId (unmount w) = nextId w) as H.
  { unfold unmount, endCall, seq, clearInterval. open_world w.
    destruct recognitionRef0 as [b|]; simpl; destruct synthRef0 as [q|]; simpl;
      destruct timerRef0 as [i|]; simpl;
      unfold set_timers; simpl; rewrite ?filter_twice;
      repeat split; discriminate. }
  destruct H as (H1 & H2 & H3 & H4 & H5 & H6 & H7).
  repeat (split; [assumption|]).
  split; [apply unmount_timers|]. split.
  - intros id Hid. rewrite unmount_timers, Hid. split.
    + apply Forall_forall. intros t Ht. apply filter_In in Ht.
      destruct Ht as [_ Ht]. apply negb_true_iff, N.eqb_neq in Ht. exact Ht.
    + intros t Ht Hne. apply filter_In. split; [exact Ht|].
      apply negb_true_iff, N.eqb_neq. exact Hne.
  - intros d F.
    destruct (in_call w d F)
      as (a & E0 & _ & Ed & _ & _ & _ & Hr & _).
    rewrite E0, unmount_timers, Ed.
    cbn -[N.mul N.add Z.add Z.of_N N.div N.eqb].
    rewrite Hr. repeat split; try discriminate.
    cbn -[N.mul N.add N.div]. rewrite N.eqb_refl. reflexivity.
Qed.

Lemma unmount_cleanup_witness :
  timers (unmount (advance 4200%N (advance 1500%N
            (startCall (mount true true stopwatch))))) = [].
Proof.
  apply (proj2 (proj2 (proj2 (proj2 (proj2 (proj2 (proj2 (proj2 (proj2
           (unmount_cleanup (mount true true stopwatch)))))))))) 4200%N).
  reflexivity.
Defined.

(** ** One utterance in a clean call *)

Lemma pop_among_ticks (n : N) (ours t : Timer) (q rest : list Timer) :
  among_ticks ours q -> pop_due n q = Some (t, rest) ->
  (t = ours /\ Forall (fun x => is_tick x = true) rest)
  \/ (is_tick t = true /\ among_ticks ours rest).
Proof.
  intros (l1 & l2 & -> & H1 & H2) E. rewrite pop_due_split in E.
  destruct (pop_due n l1) as [[t1 r1]|] eqn:E1.
  - injection E as <- <-. right.
    destruct (pop_due_keeps _ _ _ _ _ E1 H1) as [Ht Hr].
    split; [exact Ht|]. exists r1, l2. repeat split; assumption.
  - destruct (due ours <=? n)%N.
    + injection E as <- <-. left. split; [reflexivity|].
      apply Forall_app. split; assumption.
    + destruct (pop_due n l2) as [[t2 r2]|] eqn:E2; [|discriminate E].
      injection E as <- <-. right.
      destruct (pop_due_keeps _ _ _ _ _ E2 H2) as [Ht Hr].
      split; [exact Ht|]. exists l1, r2. repeat split; assumption.
Qed.

Lemma fire_tick_timers (t : Timer) (w : World) :
  is_tick t = true ->
  timers (fire t w) = (timers w ++ [mkTimer (tid t) (now w + 1000) CbTick])%list.
Proof.
  unfold is_tick, fire. destruct (cb t); try discriminate. reflexivity.
Qed.

Lemma reply_status (u : string) (w : World) :
  callStatus (session (reply u w)) = callStatus (session w).
Proof.
  unfold reply, seq, speak. open_world w. destruct synthRef0; reflexivity.
Qed.

(** While a reply is pending among ticks only, the conversation gets that one
    reply more and nothing else, and the status stays as it is. *)
Lemma one_reply_more (u : string) (id dueAt : N) (said : list Message)
    (st : CallStatus) (ms : N) (w : World) :
  among_ticks (mkTimer id dueAt (CbReply u)) (timers w) ->
  messages (session w) = said ->
  callStatus (session w) = st ->
  callStatus (session (advance ms w)) = st
  /\ (messages (session (advance ms w)) = said
      \/ exists m, messages (session (advance ms w)) = (said ++ [m])%list).
Proof.
  intros A M S.
  assert (callStatus (session (advance ms w)) = st
          /\ ((messages (session (advance ms w)) = said
               /\ among_ticks (mkTimer id dueAt (CbReply u))
                              (timers (advance ms w)))
              \/ ((exists m, messages (session (advance ms w)) = (said ++ [m])%list)
                  /\ Forall (fun x => is_tick x = true) (timers (advance ms w)))))
    as [Hs [[H _] | [H _]]];
    [|split; [exact Hs | left; exact H] | split; [exact Hs | right; exact H]].
  apply (advance_world_invariant
           (fun w0 =>
              callStatus (session w0) = st
              /\ ((messages (session w0) = said
                   /\ among_ticks (mkTimer id dueAt (CbReply u)) (timers w0))
                  \/ ((exists m, messages (session w0) = (said ++ [m])%list)
                      /\ Forall (fun x => is_tick x = true) (timers w0))))).
  - intros w0 H. exact H.
  - intros w0 t rest [S0 [[M0 A0] | [[m M0] T0]]] P.
    + destruct (pop_among_ticks _ _ _ _ _ A0 P) as [[-> Hr] | [Ht Ar]].
      * change (fire (mkTimer id dueAt (CbReply u)) (set_timers rest w0))
          with (reply u (set_timers rest w0)).
        split; [rewrite reply_status; exact S0|].
        right. split.
        -- eexists. rewrite reply_messages. simpl. rewrite M0. reflexivity.
        -- rewrite (proj2 (proj2 (reply_fields u (set_timers rest w0)))).
           exact Hr.
      * split; [rewrite (fire_tick_session t _ Ht); exact S0|].
        left. split.
        -- rewrite (fire_tick_session t _ Ht). exact M0.
        -- rewrite (fire_tick_timers t _ Ht). simpl.
           destruct Ar as (l1 & l2 & -> & H1 & H2).
           exists l1, (l2 ++ [mkTimer (tid t) (now w0 + 1000) CbTick])%list.
           repeat split.
           ++ rewrite <- app_assoc. reflexivity.
           ++ exact H1.
           ++ apply Forall_app. split; [exact H2|].
              constructor; [reflexivity | constructor].
    + destruct (pop_due_keeps _ _ _ _ _ P T0) as [Ht Hr].
      split; [rewrite (fire_tick_session t _ Ht); exact S0|].
      right. split.
      * exists m. rewrite (fire_tick_session t _ Ht). exact M0.
      * rewrite (fire_tick_timers t _ Ht). simpl.
        apply Forall_app. split; [exact Hr|].
        constructor; [reflexivity | constructor].
  - split; [exact S|]. left. split; [exact M | exact A].
Qed.

Lemma connected_hears (w : World) :
  recognitionRef (session w) = Some false ->
  recognitionRef (session (connected w)) = Some true.
Proof.
  unfold connected, seq, speak. open_world w. intros ->.
  destruct synthRef0; reflexivity.
Qed.

(** A clean call with one utterance: the call is started from idle with
    nothing pending, the user speaks once [d] milliseconds after it became
    active, and half a second later the conversation is exactly the greeting,
    what the user said (trimmed) and the reply to it, each stamped with the
    time it was appended; the call is still active and the reply is the one
    utterance in the speech queue. *)
Theorem clean_call_conversation :
  forall (w : World) (d : N) (t : string),
    fresh w -> callStatus (session w) = idle ->
    recognitionRef (session w) = Some false ->
    let said := Js.trim (t ++ " ") in
    exists w',
      exec w [ClickStart; Wait 1500; Wait d; SpeechResult [(t, true)]; Wait 500]
      = Some w'
      /\ messages (session w')
         = [greeting_message (clock w (now w + 1500)%N);
            mkMessage user said (clock w (now w + 1500 + d)%N);
            reply_message (clock w) (now w + 1500 + d + 500) said]
      /\ callStatus (session w') = active
      /\ match synthRef (session w') with
         | Some q => q = [reply_utterance (clock w) (now w + 1500 + d + 500) said]
         | None => True
         end.
Proof.
  intros w d t F Hidle Hrec said.
  destruct (in_call w d F)
    as (a & E0 & Ht & Ed & Hs & Hm & Hd & Hr & _ & Hi & Hc).
  assert (recognitionRef (session a) = Some true) as Ha.
  { rewrite <- E0, (startCall_fresh w F). apply connected_hears. exact Hrec. }
  remember (advance d a) as b eqn:Eb.
  assert (timers b = [mkTimer (nextId w + 1)
                        (now w + 1500 + 1000 * (d / 1000) + 1000) CbTick]
          /\ callStatus (session b) = active
          /\ recognitionRef (session b) = Some true
          /\ messages (session b) = [greeting_message (clock w (now w + 1500)%N)]
          /\ now b = (now w + 1500 + d)%N
          /\ clock b = clock w) as (Bt & Bs & Br & Bm & Bn & Bc).
  { rewrite Ed. cbn -[N.mul N.add Z.add Z.of_N N.div].
    repeat split; assumption. }
  assert (onresult [(t, true)] b = handleUserSpeech said b) as Eo.
  { apply (onresult_final_eq [(t, true)] b). reflexivity. }
  remember (handleUserSpeech said b) as c eqn:Ec.
  assert (messages (session c)
          = [greeting_message (clock w (now w + 1500)%N);
             mkMessage user said (clock w (now w + 1500 + d)%N)]
          /\ among_ticks (mkTimer (nextId b) (now b + 500) (CbReply said))
                         (timers c)
          /\ callStatus (session c) = active) as (Cm & Ct & Cs).
  { rewrite Ec. repeat split.
    - cbn -[N.add]. unfold newDate. rewrite Bm, Bn, Bc. reflexivity.
    - cbn -[N.add]. rewrite Bt. eexists [_], []. repeat split.
      + constructor; [reflexivity | constructor].
      + constructor.
    - exact Bs. }
  pose proof (reply_settles said b) as [[[before Am] Asy] _].
  rewrite <- Ec, Bn, Bc in Am, Asy.
  exists (advance 500 c). split; [|split; [|split]].
  - cbn [exec]. unfold step. cbn [enabled handle]. rewrite Hidle.
    cbn [CallStatus_eqb]. rewrite E0, <- Eb, Br, Eo. reflexivity.
  - destruct (proj2 (one_reply_more said (nextId b) (now b + 500) _ active
                      500 c Ct Cm Cs))
      as [M | [m M]].
    + rewrite M in Am. unfold reply_message in Am.
      destruct before as [|x [|y [|z before]]]; simpl in Am; discriminate Am.
    + rewrite M in Am. rewrite M.
      apply app_inj_tail in Am. destruct Am as [_ Em]. rewrite Em.
      reflexivity.
  - exact (proj1 (one_reply_more said (nextId b) (now b + 500) _ active
                    500 c Ct Cm Cs)).
  - exact Asy.
Qed.

Lemma clean_call_conversation_witness :
  exists w',
    exec (mount true true stopwatch)
      [ClickStart; Wait 1500; Wait 2200; SpeechResult [("What time is it", true)];
       Wait 500] = Some w'
    /\ map content (messages (session w'))
       = [greeting; "What time is it"; "The current time is 4200."].
Proof.
  destruct (clean_call_conversation (mount true true stopwatch) 2200
              "What time is it" eq_refl eq_refl eq_refl)
    as (w' & E & M & _).
  exists w'. split; [exact E|]. rewrite M. reflexivity.
Defined.

(** ** [formatDuration] below zero *)

Lemma toString_negative (k : Z) :
  (k < 0)%Z ->
  first_unit (Js.toString k) = Some "-"%char
  /\ 2 <= String.length (Js.toString k).
Proof.
  intros Hk. destruct k as [|p|p]; try lia.
  unfold Js.toString, NilZero.string_of_int, NilZero.string_of_uint. simpl.
  split; [reflexivity|].
  destruct (Pos.to_uint p); simpl; lia.
Qed.

Lemma padStart_negative (k : Z) :
  (k < 0)%Z -> Js.padStart (Js.toString k) 2 "0" = Js.toString k.
Proof.
  intros Hk. destruct (toString_negative k Hk) as [_ L].
  unfold Js.padStart.
  replace (2 - String.length (Js.toString k)) with 0 by lia. reflexivity.
Qed.

Lemma rem_negative (s : Z) :
  (s < 0)%Z ->
  (-60 < Z.rem s 60 <= 0)%Z
  /\ (Z.rem s 60 <> 0 -> 60 * (s / 60) + Z.rem s 60 = s - 60)%Z
  /\ (Z.rem s 60 = 0 -> 60 * (s / 60) = s)%Z.
Proof.
  intros Hs.
  assert (Z.rem s 60 = - ((- s) mod 60))%Z as E.
  { replace s with (- (- s))%Z at 1 by lia.
    rewrite Z.rem_opp_l by lia. rewrite Z.rem_mod_nonneg by lia. reflexivity. }
  rewrite E.
  pose proof (Z.mod_pos_bound (- s) 60 ltac:(lia)) as B.
  pose proof (Z.div_mod (- s) 60 ltac:(lia)) as D.
  pose proof (Z.mod_pos_bound s 60 ltac:(lia)) as B'.
  pose proof (Z.div_mod s 60 ltac:(lia)) as D'.
  repeat split; lia.
Qed.

(** Below zero, down to -(2^53 - 1), the two fields disagree: the minutes are
    rounded down ([Math.floor]) while the remainder keeps the sign of the
    seconds, so that a negative number of seconds that is not a whole number
    of minutes is shown one minute too low; neither field is padded; and the
    function on doubles, where the division rounds, gives this same text.
    The counter of the page is never negative, so the page never shows
    this. *)
Theorem formatDuration_negative :
  forall s : Z,
    (s < 0)%Z -> (- MAX_SAFE_INTEGER <= s)%Z ->
    exists mm ss : string,
      formatDuration s = mm ++ ":" ++ ss
      /\ mm = Js.toString (s / 60)
      /\ first_unit mm = Some "-"%char
      /\ Js.parseDecimal mm = Some (s / 60)%Z
      /\ Js.parseDecimal ss = Some (Z.rem s 60)
      /\ (-60 < Z.rem s 60 <= 0)%Z
      /\ (Z.rem s 60 <> 0%Z ->
          ss = Js.toString (Z.rem s 60)
          /\ (60 * (s / 60) + Z.rem s 60 = s - 60)%Z)
      /\ (Z.rem s 60 = 0%Z -> ss = "00" /\ (60 * (s / 60) = s)%Z)
      /\ formatDuration_double s = Some (mm ++ ":" ++ ss).
Proof.
  intros s Hs Hb.
  destruct (rem_negative s Hs) as (B & Hn & Hz).
  assert (s / 60 < 0)%Z as Hm by (apply Z.div_lt_upper_bound; lia).
  exists (Js.toString (s / 60)), (Js.padStart (Js.toString (Z.rem s 60)) 2 "0").
  assert (formatDuration s
          = Js.toString (s / 60) ++ ":"
            ++ Js.padStart (Js.toString (Z.rem s 60)) 2 "0") as Ef.
  { unfold formatDuration. cbv zeta. rewrite (padStart_negative _ Hm).
    reflexivity. }
  split; [|split; [|split; [|split; [|split; [|split; [|split; [|split]]]]]]].
  - exact Ef.
  - reflexivity.
  - apply (toString_negative _ Hm).
  - apply toString_parse.
  - destruct (Z.eq_dec (Z.rem s 60) 0) as [E | E].
    + rewrite E. reflexivity.
    + rewrite padStart_negative by lia. apply toString_parse.
  - exact B.
  - intros E. split; [apply padStart_negative; lia | apply Hn, E].
  - intros E. split; [rewrite E; reflexivity | apply Hz, E].
  - rewrite formatDuration_double_exact by lia. f_equal. exact Ef.
Qed.

Lemma formatDuration_negative_witness :
  exists mm ss : string,
    formatDuration (-1) = mm ++ ":" ++ ss
    /\ Js.parseDecimal mm = Some (-1)%Z /\ Js.parseDecimal ss = Some (-1)%Z.
Proof.
  destruct (formatDuration_negative (-1) ltac:(lia)
              ltac:(unfold MAX_SAFE_INTEGER; lia))
    as (mm & ss & E & _ & _ & Pm & Ps & _).
  exists mm, ss. repeat split; assumption.
Defined.
